(** * wifidog-ng kernel module: the terminal table (kmod/term_manage.c)

    A shallow embedding of the terminal registry of the wifidog-ng kernel
    module: a 256-bucket hash table of heap-allocated [struct terminal]
    records keyed by hardware address, each record with its own expiry timer,
    plus the /proc/wifidog/term control file built on top of it.

    The C code works on pointers: buckets chain record addresses, the timer
    callback receives a record address, and [find_term_by_mac] returns one.
    The model therefore keeps an explicit store ([heap]) from addresses to
    records, the bucket array ([table]) holding addresses, and the kernel's
    set of pending timers ([timers]) keyed by the address of the record the
    timer is embedded in.  Locking ([term_lock]) is not modelled: every
    function below is one atomic step. *)

From Stdlib Require Import ZArith List Bool Lia.
From stdpp Require Import base option list numbers gmap.

Local Open Scope Z_scope.

(** ** Records *)

(** A hardware address, [u8 mac[ETH_ALEN]] with [ETH_ALEN = 6]. *)
Record mac_addr : Type := Mac {
  m0 : Z; m1 : Z; m2 : Z; m3 : Z; m4 : Z; m5 : Z
}.

#[global] Instance mac_addr_eq_dec : EqDecision mac_addr.
Proof. solve_decision. Defined.

(** [ether_addr_equal] of linux/etherdevice.h: all six bytes agree. *)
Definition ether_addr_equal (a b : mac_addr) : bool :=
  (m0 a =? m0 b) && (m1 a =? m1 b) && (m2 a =? m2 b) &&
  (m3 a =? m3 b) && (m4 a =? m4 b) && (m5 a =? m5 b).

(** The traffic counters [term->flow.rx], [term->flow.tx]. *)
Record flow_t : Type := Flow { rx : Z; tx : Z }.

(** Modelled from the spec: [struct terminal] is declared in term_manage.h,
    which is not part of the tree.  The fields are the ones term_manage.c
    reads or writes ([mac], [ip], [flags], [flow.rx], [flow.tx], [j]), which
    are the spec's data model (identity, address, flags, counters, creation
    time), together with [active], the member the timer callback writes
    ([term->active &= ~TERM_ACTIVE]).  The embedded [struct hlist_node node]
    and [struct timer_list expires] are carried by [table] and [timers] of
    the state below. *)
Record terminal : Type := Terminal {
  mac : mac_addr;
  ip : Z;
  flags : Z;
  active : Z;
  flow : flow_t;
  j : Z
}.

(** What [kmem_cache_zalloc] hands out: every member zero. *)
Definition zeroed : terminal :=
  Terminal (Mac 0 0 0 0 0 0) 0 0 0 (Flow 0 0) 0.

Definition with_flags (f : Z) (t : terminal) : terminal :=
  Terminal (mac t) (ip t) f (active t) (flow t) (j t).

Definition with_active (a : Z) (t : terminal) : terminal :=
  Terminal (mac t) (ip t) (flags t) a (flow t) (j t).

(** ** The module's state

    Record addresses (pointers to [struct terminal]) are [positive] numbers,
    and [NULL] is [None] of [option positive].
    [jiffies] is the kernel's tick counter, [term_cache] tells whether the
    slab cache exists ([term_cache != NULL]), [heap] holds the live objects of
    that cache, [table] is [term_mac_hash_table] (bucket index to the chain
    of linked records, head first) and [timers] the pending timers: the
    address of the record whose [expires] timer is armed, with the tick at
    which it is due. *)
Record state : Type := State {
  jiffies : Z;
  term_cache : bool;
  heap : gmap positive terminal;
  table : gmap Z (list positive);
  timers : gmap positive Z
}.

Definition TERM_TTL : Z := 60.
Definition TERM_HASH_SIZE : Z := Z.shiftl 1 8.

Definition ENOMEM : Z := 12.
Definition EFAULT : Z := 14.
Definition EINVAL : Z := 22.

(** The chain hanging off [term_mac_hash_table[i]]. *)
Definition chain (s : state) (i : Z) : list positive :=
  default [] (table s !! i).

(** Every record linked in the table, bucket by bucket. *)
Definition all_terms (s : state) : list positive :=
  flat_map (chain s) (seqZ 0 TERM_HASH_SIZE).

(** The hardware addresses of the linked records, one entry per record. *)
Definition live_macs (s : state) : list mac_addr :=
  omap (fun p => mac <$> heap s !! p) (all_terms s).

(** [hlist_del]: unlink a node from whichever chain holds it. *)
Definition hlist_del (p : positive) (tbl : gmap Z (list positive))
  : gmap Z (list positive) :=
  filter (fun q => q <> p) <$> tbl.

(** [hlist_add_head]. *)
Definition hlist_add_head (p : positive) (i : Z) (tbl : gmap Z (list positive))
  : gmap Z (list positive) :=
  <[i := p :: default [] (tbl !! i)]> tbl.

(** [hlist_for_each_entry] with the [ether_addr_equal] test, as both
    [term_mark] and [find_term_by_mac] run it: the first record of the chain
    whose [mac] is the one asked for.  A chain entry with no object behind
    it, which a table built by the module never has ([table_wf] below), is
    stepped over. *)
Fixpoint hlist_find (h : gmap positive terminal) (m : mac_addr)
    (l : list positive) : option positive :=
  match l with
  | [] => None
  | p :: l' =>
      match h !! p with
      | Some t => if ether_addr_equal (mac t) m then Some p else hlist_find h m l'
      | None => hlist_find h m l'
      end
  end.

(** [strncmp] of lib/string.c over NUL-padded byte strings. *)
Fixpoint strncmp (cs ct : list Z) (count : nat) : Z :=
  match count with
  | O => 0
  | S count' =>
      let c1 := hd 0 cs in
      let c2 := hd 0 ct in
      if negb (c1 =? c2) then (if c1 <? c2 then -1 else 1)
      else if c1 =? 0 then 0
      else strncmp (tl cs) (tl ct) count'
  end.

(** The bytes of the literal "clear". *)
Definition str_clear : list Z := [99; 108; 101; 97; 114].

(** [data[i] = c] on the 128-byte stack buffer. *)
Definition poke (i : Z) (c : Z) (data : list Z) : list Z :=
  <[Z.to_nat i := c]> data.

(** [copy_from_user(data, buf, size)]: the first [size] bytes of the user
    buffer over the start of [data]. *)
Definition copy_bytes (data buf : list Z) (size : Z) : list Z :=
  take (Z.to_nat size) buf ++ drop (Z.to_nat size) data.

(** The seq_file cursor: [SEQ_START_TOKEN] or the address of a bucket. *)
Inductive seq_v : Type :=
| SEQ_START_TOKEN
| Head (i : Z).

(** One line of /proc/wifidog/term. *)
Inductive line : Type :=
| Header
| Row (m : mac_addr) (ip rx tx secs authed : Z).

Definition is_row (l : line) : bool :=
  match l with Header => false | Row _ _ _ _ _ _ => true end.

(** ** A concrete kernel

    The functions of the module are stated below over any hash, seed, byte
    order, tick rate and flag masks.  To run them, this is one configuration
    a router build would have: the Jenkins one-word hash as linux/jhash.h
    writes it, a little-endian 32-bit CPU at 100 ticks per second, the flag
    masks as bits 0 and 1, and a reader for the canonical text form of a
    hardware address (one or two hexadecimal digits per byte, colons in
    between), which is what the six-byte [sscanf] format accepts. *)
Module Kernel.

Definition rol32 (w : Z) (n : Z) : Z :=
  Z.lor (Z.shiftl w n mod 2 ^ 32) (Z.shiftr w (32 - n)).

Definition sub32 (a b : Z) : Z := (a - b) mod 2 ^ 32.

(** [__jhash_final(a, b, c)], returning [c]. *)
Definition jhash_final (a b c : Z) : Z :=
  let c := sub32 (Z.lxor c b) (rol32 b 14) in
  let a := sub32 (Z.lxor a c) (rol32 c 11) in
  let b := sub32 (Z.lxor b a) (rol32 a 25) in
  let c := sub32 (Z.lxor c b) (rol32 b 16) in
  let a := sub32 (Z.lxor a c) (rol32 c 4) in
  let b := sub32 (Z.lxor b a) (rol32 a 14) in
  sub32 (Z.lxor c b) (rol32 b 24).

Definition JHASH_INITVAL : Z := 3735928559.

Definition jhash_nwords (a b c initval : Z) : Z :=
  jhash_final ((a + initval) mod 2 ^ 32) ((b + initval) mod 2 ^ 32)
              ((c + initval) mod 2 ^ 32).

Definition jhash_1word (a initval : Z) : Z :=
  jhash_nwords a 0 0 ((initval + JHASH_INITVAL + Z.shiftl 1 2) mod 2 ^ 32).

Definition hash_rnd : Z := 2654435769.
Definition big_endian : bool := false.
Definition HZ : Z := 100.
Definition BITS_PER_LONG : Z := 32.
Definition TERM_ACTIVE : Z := Z.shiftl 1 0.
Definition TERM_AUTHED : Z := Z.shiftl 1 1.

Definition hex_digit (c : Z) : option Z :=
  if (48 <=? c) && (c <=? 57) then Some (c - 48)
  else if (97 <=? c) && (c <=? 102) then Some (c - 87)
  else if (65 <=? c) && (c <=? 70) then Some (c - 55)
  else None.

(** One conversion of at most two hexadecimal digits: the byte and the rest
    of the input. *)
Definition hex_byte (l : list Z) : option (Z * list Z) :=
  match l with
  | c1 :: l1 =>
      match hex_digit c1 with
      | Some d1 =>
          match l1 with
          | c2 :: l2 =>
              match hex_digit c2 with
              | Some d2 => Some (16 * d1 + d2, l2)
              | None => Some (d1, l1)
              end
          | [] => Some (d1, l1)
          end
      | None => None
      end
  | [] => None
  end.

(** A literal colon of the format. *)
Definition colon (l : list Z) : option (list Z) :=
  match l with
  | 58 :: l' => Some l'
  | _ => None
  end.

Definition sscanf_mac (l : list Z) : option mac_addr :=
  '(b0, l) ← hex_byte l; l ← colon l;
  '(b1, l) ← hex_byte l; l ← colon l;
  '(b2, l) ← hex_byte l; l ← colon l;
  '(b3, l) ← hex_byte l; l ← colon l;
  '(b4, l) ← hex_byte l; l ← colon l;
  '(b5, _) ← hex_byte l;
  Some (Mac b0 b1 b2 b3 b4 b5).

End Kernel.

Section TermManage.

Set Default Proof Using "Type".

(** Kernel services and configuration the file relies on: the Jenkins hash
    of linux/jhash.h, the seed drawn by [net_get_random_once], the byte order
    of the CPU, the tick rate, the width of [unsigned long], the two flag
    masks of term_manage.h, and [sscanf] with the six-byte format of
    [proc_term_write] ([Some m] when all six conversions succeed). *)
Variable jhash_1word : Z -> Z -> Z.
Variable hash_rnd : Z.
Variable big_endian : bool.
Variable HZ : Z.
Variable BITS_PER_LONG : Z.
Variable TERM_ACTIVE : Z.
Variable TERM_AUTHED : Z.
Variable sscanf_mac : list Z -> option mac_addr.

Definition u32 (x : Z) : Z := x mod 2 ^ 32.
Definition ulong (x : Z) : Z := x mod 2 ^ BITS_PER_LONG.

(** [get_unaligned] of the 32-bit word at [mac + 2]: bytes 2..5 in CPU byte
    order. *)
Definition get_unaligned_u32 (m : mac_addr) : Z :=
  if big_endian
  then Z.lor (Z.shiftl (m2 m) 24) (Z.lor (Z.shiftl (m3 m) 16) (Z.lor (Z.shiftl (m4 m) 8) (m5 m)))
  else Z.lor (Z.shiftl (m5 m) 24) (Z.lor (Z.shiftl (m4 m) 16) (Z.lor (Z.shiftl (m3 m) 8) (m2 m))).

Definition term_mac_hash (m : mac_addr) : Z :=
  let key := get_unaligned_u32 m in
  Z.land (jhash_1word key hash_rnd) (TERM_HASH_SIZE - 1).

(** ** Marking *)

(** [term->flags &= ~TERM_AUTHED; if (authed) term->flags |= TERM_AUTHED;]
    Over [Z] the two operations stay inside whatever width [flags] has, as
    long as [TERM_AUTHED] does. *)
Definition set_authed (authed : Z) (t : terminal) : terminal :=
  let f := Z.land (flags t) (Z.lnot TERM_AUTHED) in
  with_flags (if authed =? 0 then f else Z.lor f TERM_AUTHED) t.

Definition term_mark (s : state) (m : mac_addr) (authed : Z) : Z * state :=
  match hlist_find (heap s) m (chain s (term_mac_hash m)) with
  | Some p =>
      (0, State (jiffies s) (term_cache s)
                (alter (set_authed authed) p (heap s)) (table s) (timers s))
  | None => (-1, s)
  end.

Definition term_mark_authed (s : state) (m : mac_addr) : Z * state :=
  term_mark s m TERM_AUTHED.

Definition term_mark_denied (s : state) (m : mac_addr) : Z * state :=
  term_mark s m 0.

(** ** Lookup *)

Definition find_term_by_mac (s : state) (m : mac_addr) : option positive :=
  hlist_find (heap s) m (chain s (term_mac_hash m)).

(** [term && (term->flags & TERM_AUTHED)]; the dereference goes through the
    store. *)
Definition term_is_authd (s : state) (m : mac_addr) : Z :=
  match find_term_by_mac s m with
  | Some p =>
      match heap s !! p with
      | Some t => if Z.land (flags t) TERM_AUTHED =? 0 then 0 else 1
      | None => 0
      end
  | None => 0
  end.

(** ** Clearing *)

(** The body of the inner loop of [term_clear]:
    [hlist_del], [del_timer], [kmem_cache_free]. *)
Definition clear_entry (s : state) (pos : positive) : state :=
  State (jiffies s) (term_cache s)
        (delete pos (heap s)) (hlist_del pos (table s)) (delete pos (timers s)).

(** [hlist_for_each_entry_safe] over one chain. *)
Definition clear_chain (s : state) (i : Z) : state :=
  fold_left clear_entry (chain s i) s.

Definition term_clear (s : state) : state :=
  if term_cache s
  then fold_left clear_chain (seqZ 0 TERM_HASH_SIZE) s
  else s.

(** ** The listing (seq_file operations) *)

Definition term_seq_start (pos : Z) : option seq_v :=
  if pos =? 0 then Some SEQ_START_TOKEN
  else if pos >=? TERM_HASH_SIZE then None
  else Some (Head pos).

Definition term_seq_next (v : seq_v) (pos : Z) : option seq_v * Z :=
  let pos' := match v with SEQ_START_TOKEN => 0 | Head _ => pos + 1 end in
  (if pos' >=? TERM_HASH_SIZE then None else Some (Head pos'), pos').

(** The loop of [term_seq_show] over one chain; [authed] is the local
    variable of the function, set on the first authenticated record and
    never reset. *)
Fixpoint show_chain (s : state) (authed : Z) (l : list positive) : list line :=
  match l with
  | [] => []
  | p :: l' =>
      match heap s !! p with
      | Some t =>
          let authed' := if Z.land (flags t) TERM_AUTHED =? 0 then authed else 1 in
          Row (mac t) (ip t) (rx (flow t)) (tx (flow t))
              (ulong (jiffies s - j t) / HZ) authed'
            :: show_chain s authed' l'
      | None => show_chain s authed l'
      end
  end.

Definition term_seq_show (s : state) (v : seq_v) : list line :=
  match v with
  | SEQ_START_TOKEN => [Header]
  | Head i => show_chain s 0 (chain s i)
  end.

(** One uninterrupted pass of [seq_read] from cursor [v] at position [pos]:
    show, next, and so on until [next] returns NULL. *)
Fixpoint seq_pass (fuel : nat) (s : state) (v : seq_v) (pos : Z) : list line :=
  match fuel with
  | O => []
  | S fuel' =>
      term_seq_show s v ++
      match term_seq_next v pos with
      | (Some v', pos') => seq_pass fuel' s v' pos'
      | (None, _) => []
      end
  end.

(** Reading the whole file from offset 0.  The pass visits the start token
    and the 256 buckets, so 257 steps exhaust it. *)
Definition enumerate (s : state) : list line :=
  match term_seq_start 0 with
  | Some v => seq_pass 257 s v 0
  | None => []
  end.

(** The data rows of a listing. *)
Definition rows (ls : list line) : list line :=
  filter (fun l => is_row l) ls.

(** ** The control file *)

(** [proc_term_write].  [stack] is what the 128 bytes of [data] hold on
    entry (the array is not initialised), [buf] the bytes readable at the
    user pointer: [copy_from_user] fails when fewer than [size] are.  The
    result is the returned [ssize_t] and the state left behind. *)
Definition proc_term_write (s : state) (stack buf : list Z) (size : Z)
  : Z * state :=
  if size =? 0 then (- EINVAL, s)
  else
    let size := if size >? 128 then 128 else size in
    if Z.of_nat (length buf) <? size then (- EFAULT, s)
    else
      let data := poke (size - 1) 0 (copy_bytes stack buf size) in
      if strncmp data str_clear 5 =? 0 then (size, term_clear s)
      else
        match sscanf_mac (drop 1 data) with
        | None => (size, s)
        | Some m =>
            let op := hd 0 data in
            if op =? 43 then (size, (term_mark_authed s m).2)
            else if op =? 45 then (size, (term_mark_denied s m).2)
            else (size, s)
        end.

(** ** Timers *)

(** [setup_timer]: the timer embedded in the record starts out inactive. *)
Definition setup_timer (p : positive) (s : state) : state :=
  State (jiffies s) (term_cache s) (heap s) (table s) (delete p (timers s)).

(** [mod_timer]: (re)arm the timer of record [p] for tick [expires]. *)
Definition mod_timer (p : positive) (expires : Z) (s : state) : state :=
  State (jiffies s) (term_cache s) (heap s) (table s) (<[p := expires]> (timers s)).

(** [term_timer_refresh]: [jiffies + timeout * HZ], the product in 32 bits
    ([timeout] is a [u32]), the sum in [unsigned long]. *)
Definition term_timer_refresh (s : state) (p : positive) (timeout : Z) : state :=
  mod_timer p (ulong (jiffies s + u32 (timeout * HZ))) s.

(** [term_timer_timeout]: the callback of a record's timer.  The test reads
    [term->flags]; the else branch writes [term->active].  The kernel calls
    it with the address of the record the timer sits in; on an address with
    no object behind it the model does nothing. *)
Definition term_timer_timeout (s : state) (p : positive) : state :=
  match heap s !! p with
  | None => s
  | Some t =>
      if Z.land (flags t) TERM_ACTIVE =? 0
      then State (jiffies s) (term_cache s)
                 (delete p (heap s)) (hlist_del p (table s)) (timers s)
      else
        let t' := with_active (Z.land (active t) (Z.lnot TERM_ACTIVE)) t in
        term_timer_refresh
          (State (jiffies s) (term_cache s) (<[p := t']> (heap s)) (table s) (timers s))
          p TERM_TTL
  end.

(** ** Insertion *)

(** [add_term].  [a] is the answer of [term_alloc], that is of
    [kmem_cache_zalloc]: [None] for NULL, [Some p] for a zeroed object at
    address [p]. *)
Definition add_term (s : state) (m : mac_addr) (ip : Z) (a : option positive)
  : Z * state :=
  let hash := term_mac_hash m in
  match a with
  | None => (- ENOMEM, s)
  | Some p =>
      let t := Terminal m ip (flags zeroed) (active zeroed) (flow zeroed) (jiffies s) in
      let s1 := State (jiffies s) (term_cache s) (<[p := t]> (heap s)) (table s) (timers s) in
      let s2 := setup_timer p s1 in
      let s3 := State (jiffies s2) (term_cache s2) (heap s2)
                      (hlist_add_head p hash (table s2)) (timers s2) in
      (0, term_timer_refresh s3 p TERM_TTL)
  end.

(** The record [add_term] fills in: zeroed, then [j], [ip] and [mac]. *)
Definition new_term (s : state) (m : mac_addr) (ip : Z) : terminal :=
  Terminal m ip 0 0 (Flow 0 0) (jiffies s).

(** A run of insertions, each with the allocator's answer. *)
Definition add_terms (s : state) (ops : list (mac_addr * Z * option positive))
  : state :=
  fold_left (fun s op => (add_term s op.1.1 op.1.2 op.2).2) ops s.

(** [term_init] on the path where both [kmem_cache_create] and
    [proc_create] succeed: empty buckets, a cache, no object, no timer. *)
Definition term_init (now : Z) : state :=
  State now true ∅ ∅ ∅.

(** ** The kernel's timer facility

    [time_after_eq(a, b)] of linux/jiffies.h is [(long)(a - b) >= 0].  The
    kernel runs a pending timer once [jiffies] has reached its expiry: it
    detaches the timer, then calls the callback with the record address. *)
Definition time_after_eq (a b : Z) : bool :=
  ulong (a - b) <? 2 ^ (BITS_PER_LONG - 1).

Definition expire_timer (s : state) (p : positive) : state :=
  match timers s !! p with
  | Some e =>
      if time_after_eq (jiffies s) e
      then term_timer_timeout
             (State (jiffies s) (term_cache s) (heap s) (table s) (delete p (timers s))) p
      else s
  | None => s
  end.

(** The timers that are due, as the kernel finds them at a tick. *)
Definition due (s : state) : list positive :=
  (filter (fun pe => time_after_eq (jiffies s) pe.2 = true) (map_to_list (timers s))).*1.

Definition run_timers (s : state) : state :=
  fold_left expire_timer (due s) s.

(** One timer interrupt: [jiffies] advances, due timers run. *)
Definition tick (s : state) : state :=
  run_timers (State (ulong (jiffies s + 1)) (term_cache s) (heap s) (table s) (timers s)).

(** [n] ticks during which nothing else calls into the module. *)
Definition advance (n : nat) (s : state) : state :=
  Nat.iter n tick s.

(** ** Well-formed tables *)

(** Every linked record is live and hangs off the bucket of its address. *)
Definition table_wf (s : state) : Prop :=
  Forall (fun i =>
    Forall (fun p => (term_mac_hash ∘ mac) <$> (heap s !! p) = Some i) (chain s i))
    (seqZ 0 TERM_HASH_SIZE).

(** Every linked record is live. *)
Definition linked_live (s : state) : Prop :=
  Forall (fun p => is_Some (heap s !! p)) (all_terms s).

(** Answers of the allocator along a run of insertions: an object it hands
    out is not one that is in use. *)
Fixpoint allocs_fresh (s : state) (ops : list (mac_addr * Z * option positive))
  : Prop :=
  match ops with
  | [] => True
  | op :: ops' =>
      (forall p, op.2 = Some p -> heap s !! p = None) /\
      allocs_fresh (add_term s op.1.1 op.1.2 op.2).2 ops'
  end.


(** ** Views of one record, for the expiry proofs *)

(** What the module holds about one record address. *)
Definition same_at (p : positive) (s s' : state) : Prop :=
  heap s' !! p = heap s !! p /\ timers s' !! p = timers s !! p /\
  (forall i, p ∈ chain s' i <-> p ∈ chain s i) /\ jiffies s' = jiffies s.



(** The state in which [tick] runs the timers. *)
Definition bump (s : state) : state :=
  State (ulong (jiffies s + 1)) (term_cache s) (heap s) (table s) (timers s).


(** ** More of the listing *)

(** The hardware address a line of the listing shows. *)
Definition row_mac (l : line) : option mac_addr :=
  match l with
  | Header => None
  | Row m _ _ _ _ _ => Some m
  end.

(** Record [q] is live and has [TERM_AUTHED] set in [flags]. *)
Definition authed_rec (s : state) (q : positive) : Prop :=
  exists u, heap s !! q = Some u /\ Z.land (flags u) TERM_AUTHED <> 0.

(** A read of the file that [seq_read] resumes at position [pos]:
    [term_seq_start] with that position, then show and next as in [enumerate]. *)
Definition listing_from (s : state) (pos : Z) : list line :=
  match term_seq_start pos with
  | Some v => seq_pass 257 s v pos
  | None => []
  end.

(** What the control file may do to the records: [s'] links no record that
    [s] does not link, holds no object that [s] does not hold, and an object
    it holds differs from the one of [s] in the [TERM_AUTHED] bits of
    [flags] at most. *)
Definition records_kept (s s' : state) : Prop :=
  jiffies s' = jiffies s /\
  (forall i p, p ∈ chain s' i -> p ∈ chain s i) /\
  (forall p t', heap s' !! p = Some t' ->
     exists t, heap s !! p = Some t /\
       mac t' = mac t /\ ip t' = ip t /\ flow t' = flow t /\ j t' = j t /\
       active t' = active t /\
       Z.land (flags t') (Z.lnot TERM_AUTHED) = Z.land (flags t) (Z.lnot TERM_AUTHED)).

(** ** The module as a transition system *)

(** The bookkeeping of the registry: every linked record is live and in the
    bucket of its address, no record is linked twice, every live object is
    linked, and a timer is pending for the linked records and for nothing
    else. *)
Definition registry_ok (s : state) : Prop :=
  table_wf s /\ NoDup (all_terms s) /\
  (forall p, is_Some (heap s !! p) -> p ∈ all_terms s) /\
  (forall p, p ∈ all_terms s <-> is_Some (timers s !! p)).

(** One call into the module, or one timer interrupt.  The allocator hands
    [add_term] an object that is not in use, or none. *)
Inductive step : state -> state -> Prop :=
| step_add_term (s : state) (m : mac_addr) (ip1 : Z) (a : option positive) :
    (forall p, a = Some p -> heap s !! p = None) ->
    step s (add_term s m ip1 a).2
| step_term_mark (s : state) (m : mac_addr) (authed : Z) :
    step s (term_mark s m authed).2
| step_term_clear (s : state) :
    step s (term_clear s)
| step_write (s : state) (stack buf : list Z) (size : Z) :
    step s (proc_term_write s stack buf size).2
| step_tick (s : state) :
    step s (tick s).

(** The states the module can be in after a successful [term_init]. *)
Definition reachable (s : state) : Prop :=
  exists now, rtc step (term_init now) s.

(** Record [p] as in [s], up to its [active] member: live, with the same
    [flags], [mac] and [ip], and linked wherever it was. *)
Definition stays_at (p : positive) (t : terminal) (s s' : state) : Prop :=
  (exists t', heap s' !! p = Some t' /\ flags t' = flags t /\
              mac t' = mac t /\ ip t' = ip t) /\
  (forall i, p ∈ chain s i -> p ∈ chain s' i).

(** * Properties *)

(** ** Basic facts *)

Lemma ether_addr_equal_true (a b : mac_addr) :
  ether_addr_equal a b = true <-> a = b.
Proof.
  unfold ether_addr_equal. split.
  - intros H. repeat (apply andb_prop in H; destruct H as [H ?]).
    destruct a, b; simpl in *. f_equal; lia.
  - intros ->. rewrite !Z.eqb_refl. reflexivity.
Qed.

Lemma ether_addr_equal_false (a b : mac_addr) :
  ether_addr_equal a b = false <-> a <> b.
Proof.
  rewrite <- ether_addr_equal_true. destruct (ether_addr_equal a b); split; congruence.
Qed.

Lemma term_mac_hash_range (m : mac_addr) :
  0 <= term_mac_hash m < TERM_HASH_SIZE.
Proof.
  unfold term_mac_hash. change (TERM_HASH_SIZE - 1) with (Z.ones 8).
  rewrite Z.land_ones by lia. change TERM_HASH_SIZE with (2 ^ 8).
  apply Z.mod_pos_bound. lia.
Qed.

Lemma elem_of_all_terms (s : state) (p : positive) :
  p ∈ all_terms s <-> exists i, 0 <= i < TERM_HASH_SIZE /\ p ∈ chain s i.
Proof.
  unfold all_terms. rewrite list_elem_of_In, in_flat_map. split.
  - intros (i & Hi & Hp). exists i. rewrite <- !list_elem_of_In in *.
    apply elem_of_seqZ in Hi. split; [lia | done].
  - intros (i & Hi & Hp). exists i. rewrite <- !list_elem_of_In.
    split; [apply elem_of_seqZ; lia | done].
Qed.

Lemma hlist_find_Some h m l p :
  hlist_find h m l = Some p ->
  p ∈ l /\ exists t, h !! p = Some t /\ mac t = m.
Proof.
  induction l as [|q l IH]; simpl; [discriminate|].
  destruct (h !! q) as [t|] eqn:Hq.
  - destruct (ether_addr_equal (mac t) m) eqn:E.
    + intros [= <-]. apply ether_addr_equal_true in E.
      split; [left | eauto].
    + intros H. destruct (IH H) as [? ?]. split; [by right | done].
  - intros H. destruct (IH H) as [? ?]. split; [by right | done].
Qed.

Lemma hlist_find_None h m l :
  hlist_find h m l = None <->
  forall p t, p ∈ l -> h !! p = Some t -> mac t <> m.
Proof.
  induction l as [|q l IH]; simpl.
  - split; [|done]. intros _ p t Hp. by apply elem_of_nil in Hp.
  - destruct (h !! q) as [t|] eqn:Hq.
    + destruct (ether_addr_equal (mac t) m) eqn:E.
      * split; [discriminate|]. intros H. exfalso.
        apply ether_addr_equal_true in E. eapply H; [left | exact Hq | exact E].
      * rewrite IH. apply ether_addr_equal_false in E. split.
        -- intros H p t' Hp Ht'. apply elem_of_cons in Hp as [->|Hp]; [congruence | eauto].
        -- intros H p t' Hp. apply H. by right.
    + rewrite IH. split.
      * intros H p t' Hp Ht'. apply elem_of_cons in Hp as [->|Hp]; [congruence | eauto].
      * intros H p t' Hp. apply H. by right.
Qed.

(** A record of the chain with the address asked for makes the search
    succeed, on a record with that address. *)
Lemma hlist_find_is_Some h m l p t :
  p ∈ l -> h !! p = Some t -> mac t = m ->
  exists q, hlist_find h m l = Some q.
Proof.
  intros Hp Ht Hm. destruct (hlist_find h m l) as [q|] eqn:E; [eauto|].
  exfalso. eapply hlist_find_None in E; eauto.
Qed.

(** Rewriting records in place without touching [mac] does not change what
    the search finds. *)
Lemma hlist_find_alter (f : terminal -> terminal) p h m l :
  (forall t, mac (f t) = mac t) ->
  hlist_find (alter f p h) m l = hlist_find h m l.
Proof.
  intros Hf. induction l as [|q l IH]; simpl; [done|].
  rewrite lookup_alter. destruct (decide (p = q)) as [<-|].
  - destruct (h !! p) as [t|]; simpl; [|done].
    rewrite Hf, IH. done.
  - rewrite IH. done.
Qed.

Lemma mac_set_authed a t : mac (set_authed a t) = mac t.
Proof. reflexivity. Qed.

(** The bit-level content of [set_authed]. *)
Lemma land_lor_lnot (f a : Z) :
  Z.land (Z.lor (Z.land f (Z.lnot a)) a) (Z.lnot a) = Z.land f (Z.lnot a).
Proof.
  apply Z.bits_inj'. intros n Hn.
  rewrite !Z.land_spec, !Z.lor_spec, !Z.land_spec, !Z.lnot_spec by lia.
  destruct (Z.testbit f n), (Z.testbit a n); reflexivity.
Qed.

Lemma land_land_same (f a : Z) : Z.land (Z.land f a) a = Z.land f a.
Proof. rewrite <- Z.land_assoc, Z.land_diag. reflexivity. Qed.

Lemma set_authed_idem a t : set_authed a (set_authed a t) = set_authed a t.
Proof.
  unfold set_authed, with_flags; simpl. f_equal.
  destruct (a =? 0).
  - apply land_land_same.
  - rewrite land_lor_lnot. reflexivity.
Qed.

(** ** Marking: idempotence and frame *)

Lemma chain_same_table s s' i : table s' = table s -> chain s' i = chain s i.
Proof. unfold chain. intros ->. reflexivity. Qed.

Lemma term_mark_idem (s : state) (m : mac_addr) (authed : Z) :
  term_mark (term_mark s m authed).2 m authed = term_mark s m authed.
Proof.
  unfold term_mark at 2 3.
  destruct (hlist_find (heap s) m (chain s (term_mac_hash m))) as [p|] eqn:E; simpl.
  - unfold term_mark; simpl. unfold chain at 1; simpl. fold (chain s (term_mac_hash m)).
    rewrite hlist_find_alter by apply mac_set_authed. rewrite E.
    do 2 f_equal. apply map_eq. intros q. rewrite !lookup_alter.
    destruct (decide (p = q)) as [<-|]; [|done].
    rewrite decide_True by done.
    destruct (heap s !! p); simpl; [|done].
    by rewrite set_authed_idem.
  - unfold term_mark. by rewrite E.
Qed.

(** C8.  Marking an address authenticated twice in a row leaves the same
    registry, and returns the same value, as marking it once; this holds
    for every address, present in the table or not. *)
Theorem term_mark_authed_idempotent (s : state) (m : mac_addr) :
  term_mark_authed (term_mark_authed s m).2 m = term_mark_authed s m.
Proof. unfold term_mark_authed. apply term_mark_idem. Qed.

Lemma set_authed_other_bits (authed : Z) (t : terminal) :
  Z.land (flags (set_authed authed t)) (Z.lnot TERM_AUTHED)
  = Z.land (flags t) (Z.lnot TERM_AUTHED).
Proof.
  unfold set_authed; simpl. destruct (authed =? 0).
  - apply land_land_same.
  - apply land_lor_lnot.
Qed.

Lemma set_authed_disjoint_mask (authed mask : Z) (t : terminal) :
  Z.land TERM_AUTHED mask = 0 ->
  Z.land (flags (set_authed authed t)) mask = Z.land (flags t) mask.
Proof.
  intros Hd. unfold set_authed; simpl.
  assert (Hbit : forall n, 0 <= n ->
            Z.testbit TERM_AUTHED n && Z.testbit mask n = false).
  { intros n Hn. rewrite <- Z.land_spec, Hd. apply Z.bits_0. }
  destruct (authed =? 0); apply Z.bits_inj'; intros n Hn; specialize (Hbit n Hn);
    rewrite ?Z.land_spec, ?Z.lor_spec, ?Z.land_spec, ?Z.lnot_spec by lia;
    destruct (Z.testbit (flags t) n), (Z.testbit TERM_AUTHED n),
      (Z.testbit mask n); simpl in *; congruence.
Qed.

(** C9.  [term_mark] on an address that is present touches one thing: the
    bits of [TERM_AUTHED] in the [flags] of the record the search finds.
    The tick counter, the buckets, the timers and every other record are
    the same afterwards; that record keeps its [mac], [ip], counters,
    creation time and [active] member, every bit of [flags] outside
    [TERM_AUTHED], and so its active flag, the two masks being different
    bits. *)
Theorem term_mark_frame (s : state) (m : mac_addr) (authed : Z) (p : positive) :
  Z.land TERM_AUTHED TERM_ACTIVE = 0 ->
  find_term_by_mac s m = Some p ->
  let s' := (term_mark s m authed).2 in
  (term_mark s m authed).1 = 0 /\
  jiffies s' = jiffies s /\ term_cache s' = term_cache s /\
  table s' = table s /\ timers s' = timers s /\
  (forall q, q <> p -> heap s' !! q = heap s !! q) /\
  exists t t',
    heap s !! p = Some t /\ heap s' !! p = Some t' /\
    mac t' = mac t /\ ip t' = ip t /\ flow t' = flow t /\ j t' = j t /\
    active t' = active t /\
    Z.land (flags t') (Z.lnot TERM_AUTHED) = Z.land (flags t) (Z.lnot TERM_AUTHED) /\
    Z.land (flags t') TERM_ACTIVE = Z.land (flags t) TERM_ACTIVE.
Proof.
  intros Hd Hf. unfold find_term_by_mac in Hf. unfold term_mark. rewrite Hf. simpl.
  repeat split.
  - intros q Hq. by rewrite lookup_alter_ne.
  - apply hlist_find_Some in Hf as (_ & t & Ht & _).
    exists t, (set_authed authed t). rewrite lookup_alter_eq, Ht. simpl.
    repeat split.
    + apply set_authed_other_bits.
    + by apply set_authed_disjoint_mask.
Qed.

(** ** Lookup and the authentication test *)

Lemma not_live_mac (s : state) (m : mac_addr) :
  m ∉ live_macs s ->
  forall i p t, 0 <= i < TERM_HASH_SIZE -> p ∈ chain s i ->
                heap s !! p = Some t -> mac t <> m.
Proof.
  intros Hm i p t Hi Hp Ht Heq. apply Hm. unfold live_macs.
  apply list_elem_of_omap. exists p. split.
  - apply elem_of_all_terms. eauto.
  - rewrite Ht. simpl. by rewrite Heq.
Qed.

Lemma live_mac_inv (s : state) (m : mac_addr) :
  m ∈ live_macs s ->
  exists i p t, 0 <= i < TERM_HASH_SIZE /\ p ∈ chain s i /\
                heap s !! p = Some t /\ mac t = m.
Proof.
  unfold live_macs. intros H. apply list_elem_of_omap in H as (p & Hp & Hm).
  apply elem_of_all_terms in Hp as (i & Hi & Hp).
  destruct (heap s !! p) as [t|] eqn:Ht; simpl in Hm; [|discriminate].
  injection Hm as <-. eauto 10.
Qed.

Lemma table_wf_chain (s : state) (i : Z) (p : positive) :
  table_wf s -> 0 <= i < TERM_HASH_SIZE -> p ∈ chain s i ->
  exists t, heap s !! p = Some t /\ term_mac_hash (mac t) = i.
Proof.
  intros Hwf Hi Hp. unfold table_wf in Hwf.
  rewrite Forall_forall in Hwf. specialize (Hwf i).
  rewrite elem_of_seqZ in Hwf. specialize (Hwf ltac:(lia)).
  rewrite Forall_forall in Hwf. specialize (Hwf p Hp).
  destruct (heap s !! p) as [t|]; simpl in Hwf; [|discriminate].
  injection Hwf as Hwf. eauto.
Qed.

Lemma omap_cons_Some {A B} (f : A -> option B) (x : A) (l : list A) (y : B) :
  f x = Some y -> omap f (x :: l) = y :: omap f l.
Proof.
  intros H.
  change (omap f (x :: l)) with (from_option (fun y => y :: omap f l) (omap f l) (f x)).
  by rewrite H.
Qed.

Lemma omap_cons_None {A B} (f : A -> option B) (x : A) (l : list A) :
  f x = None -> omap f (x :: l) = omap f l.
Proof.
  intros H.
  change (omap f (x :: l)) with (from_option (fun y => y :: omap f l) (omap f l) (f x)).
  by rewrite H.
Qed.

(** In a list whose images are pairwise distinct, an image has one source. *)
Lemma NoDup_omap_inj {A B} (f : A -> option B) (l : list A) (x y : A) (b : B) :
  NoDup (omap f l) -> x ∈ l -> y ∈ l -> f x = Some b -> f y = Some b -> x = y.
Proof.
  induction l as [|a l IH]; intros Hnd Hx Hy Hfx Hfy; [by apply elem_of_nil in Hx|].
  assert (Hin : forall z, z ∈ l -> f z = Some b -> b ∈ omap f l).
  { intros z Hz Hfz. apply list_elem_of_omap. eauto. }
  apply elem_of_cons in Hx as [->|Hx]; apply elem_of_cons in Hy as [->|Hy]; try done.
  - rewrite (omap_cons_Some f a l b Hfx) in Hnd.
    apply NoDup_cons in Hnd as [Hn _]. destruct Hn. eauto.
  - rewrite (omap_cons_Some f a l b Hfy) in Hnd.
    apply NoDup_cons in Hnd as [Hn _]. destruct Hn. eauto.
  - apply IH; try done. destruct (f a) as [c|] eqn:Hfa.
    + rewrite (omap_cons_Some f a l c Hfa) in Hnd. by apply NoDup_cons in Hnd as [_ ?].
    + by rewrite (omap_cons_None f a l Hfa) in Hnd.
Qed.

(** The record the search returns is the first of the chain that carries
    the address: no live record before it does. *)
Lemma hlist_find_first h m l p :
  hlist_find h m l = Some p ->
  exists l1 l2, l = l1 ++ p :: l2 /\
    forall q u, q ∈ l1 -> h !! q = Some u -> mac u <> m.
Proof.
  induction l as [|q l IH]; simpl; [discriminate|].
  destruct (h !! q) as [t|] eqn:Hq.
  - destruct (ether_addr_equal (mac t) m) eqn:E.
    + intros [= <-]. exists [], l. split; [done|].
      intros q' u Hq'. by apply elem_of_nil in Hq'.
    + intros Hf. destruct (IH Hf) as (l1 & l2 & -> & Hno).
      exists (q :: l1), l2. split; [done|]. intros q' u Hq' Hu.
      apply elem_of_cons in Hq' as [->|Hq']; [|eauto].
      apply ether_addr_equal_false in E. congruence.
  - intros Hf. destruct (IH Hf) as (l1 & l2 & -> & Hno).
    exists (q :: l1), l2. split; [done|]. intros q' u Hq' Hu.
    apply elem_of_cons in Hq' as [->|Hq']; [congruence | eauto].
Qed.

(** C6, as the code has it.  [term_is_authd] answers 0 for an address no
    linked record carries, and never anything but 0 or 1.  For an address
    that is present it answers for one record, the one the lookup returns:
    the first record of the address's bucket that carries the address, which
    is the one inserted last.  It answers 1 when [TERM_AUTHED] is set in the
    [flags] of that record and 0 when it is not, whatever the flags of the
    records of the same address linked behind it.  When the addresses of the
    table are pairwise distinct that record is the only one with the
    address, and the answer is its flag. *)
Theorem term_is_authd_spec (s : state) (m : mac_addr) :
  table_wf s ->
  (m ∉ live_macs s -> term_is_authd s m = 0) /\
  (m ∈ live_macs s ->
   exists p t l1 l2,
     find_term_by_mac s m = Some p /\ heap s !! p = Some t /\ mac t = m /\
     chain s (term_mac_hash m) = l1 ++ p :: l2 /\
     (forall q u, q ∈ l1 -> heap s !! q = Some u -> mac u <> m) /\
     (Z.land (flags t) TERM_AUTHED <> 0 -> term_is_authd s m = 1) /\
     (Z.land (flags t) TERM_AUTHED = 0 -> term_is_authd s m = 0)) /\
  (NoDup (live_macs s) ->
   forall p t, p ∈ all_terms s -> heap s !! p = Some t -> mac t = m ->
               (Z.land (flags t) TERM_AUTHED <> 0 -> term_is_authd s m = 1) /\
               (Z.land (flags t) TERM_AUTHED = 0 -> term_is_authd s m = 0)) /\
  (term_is_authd s m = 0 \/ term_is_authd s m = 1).
Proof.
  intros Hwf. pose proof (term_mac_hash_range m) as Hr.
  assert (Hpresent : m ∈ live_macs s ->
    exists p t, find_term_by_mac s m = Some p /\ heap s !! p = Some t /\
                mac t = m /\ p ∈ all_terms s /\
                (Z.land (flags t) TERM_AUTHED <> 0 -> term_is_authd s m = 1) /\
                (Z.land (flags t) TERM_AUTHED = 0 -> term_is_authd s m = 0)).
  { intros Hm. apply live_mac_inv in Hm as (i & p & t & Hi & Hp & Ht & Hm).
    destruct (table_wf_chain s i p Hwf Hi Hp) as (t0 & Ht0 & Hh).
    assert (t0 = t) as -> by congruence. rewrite Hm in Hh. subst i.
    destruct (hlist_find_is_Some _ _ _ _ _ Hp Ht Hm) as [q Hq].
    destruct (hlist_find_Some _ _ _ _ Hq) as (Hqin & u & Hu & Hmu).
    exists q, u. unfold term_is_authd, find_term_by_mac. rewrite Hq, Hu.
    repeat apply conj; try done.
    - apply elem_of_all_terms. eauto.
    - intros Hne. apply Z.eqb_neq in Hne. by rewrite Hne.
    - intros ->. reflexivity. }
  repeat apply conj.
  - intros Hm. unfold term_is_authd, find_term_by_mac.
    assert (hlist_find (heap s) m (chain s (term_mac_hash m)) = None) as ->; [|done].
    apply hlist_find_None. intros p t Hp Ht. eapply not_live_mac; eauto.
  - intros Hm. destruct (Hpresent Hm) as (p & t & Hf & ? & ? & _ & ? & ?).
    pose proof Hf as Hf'. unfold find_term_by_mac in Hf'.
    destruct (hlist_find_first _ _ _ _ Hf') as (l1 & l2 & Hl & Hno).
    exists p, t, l1, l2. done.
  - intros Hnd p t Hp Ht Hm.
    assert (Hlive : m ∈ live_macs s).
    { unfold live_macs. apply list_elem_of_omap. exists p. by rewrite Ht, <- Hm. }
    destruct (Hpresent Hlive) as (q & u & _ & Hu & Hmu & Hq & H1 & H0).
    assert (q = p) as ->.
    { apply (NoDup_omap_inj (fun p => mac <$> heap s !! p) (all_terms s) q p m);
        try done.
      - by rewrite Hu, <- Hmu.
      - by rewrite Ht, <- Hm. }
    assert (u = t) as -> by congruence. done.
  - unfold term_is_authd. destruct (find_term_by_mac s m); [|by left].
    destruct (heap s !! p); [|by left].
    destruct (Z.land (flags t) TERM_AUTHED =? 0); [by left | by right].
Qed.

(** ** Clearing the table *)

Lemma filter_all {A} (P : A -> Prop) `{!forall x, Decision (P x)} (l : list A) :
  (forall x, x ∈ l -> P x) -> filter P l = l.
Proof.
  induction l as [|x l IH]; intros Hall; [done|].
  rewrite filter_cons_True by (apply Hall; left).
  f_equal. apply IH. intros y Hy. apply Hall. by right.
Qed.

Lemma filter_none {A} (P : A -> Prop) `{!forall x, Decision (P x)} (l : list A) :
  (forall x, x ∈ l -> ~ P x) -> filter P l = [].
Proof.
  induction l as [|x l IH]; intros Hall; [done|].
  rewrite filter_cons_False by (apply Hall; left).
  apply IH. intros y Hy. apply Hall. by right.
Qed.

Lemma chain_hlist_del (s : state) (q : positive) (k : Z) h c tm :
  chain (State (jiffies s) c h (hlist_del q (table s)) tm) k
  = filter (fun x => x <> q) (chain s k).
Proof.
  unfold chain, hlist_del; simpl. rewrite lookup_fmap.
  destruct (table s !! k); reflexivity.
Qed.

Lemma clear_entry_chain (s : state) (q : positive) (k : Z) :
  chain (clear_entry s q) k = filter (fun x => x <> q) (chain s k).
Proof. apply chain_hlist_del. Qed.

(** What one pass of the inner loop leaves: the records of the list it
    walked are unlinked from every chain, freed, and their timers deleted;
    nothing else moves. *)
Lemma clear_entries (l : list positive) (s : state) :
  let s' := fold_left clear_entry l s in
  term_cache s' = term_cache s /\
  (forall k, chain s' k = filter (fun x => x ∉ l) (chain s k)) /\
  (forall x, heap s' !! x = if decide (x ∈ l) then None else heap s !! x) /\
  (forall x, timers s' !! x = if decide (x ∈ l) then None else timers s !! x).
Proof.
  revert s. induction l as [|q l IH]; intros s; cbn [fold_left].
  - repeat apply conj.
    + reflexivity.
    + intros k. symmetry. apply filter_all. intros x _. apply not_elem_of_nil.
    + intros x. destruct (decide (x ∈ [])) as [Hx|]; [by apply elem_of_nil in Hx | done].
    + intros x. destruct (decide (x ∈ [])) as [Hx|]; [by apply elem_of_nil in Hx | done].
  - destruct (IH (clear_entry s q)) as (Hc & Hch & Hh & Ht). repeat apply conj.
    + rewrite Hc. reflexivity.
    + intros k. rewrite Hch, clear_entry_chain, list_filter_filter.
      apply list_filter_iff. intros x. rewrite not_elem_of_cons.
      split; intros [? ?]; split; assumption.
    + intros x. rewrite Hh. cbn [clear_entry heap].
      destruct (decide (x ∈ l)) as [Hl|Hl].
      * rewrite decide_True; [done | by right].
      * destruct (decide (x = q)) as [->|Hq].
        -- rewrite decide_True by left. apply lookup_delete_eq.
        -- rewrite decide_False by (rewrite elem_of_cons; by intros [?|?]).
           by apply lookup_delete_ne.
    + intros x. rewrite Ht. cbn [clear_entry timers].
      destruct (decide (x ∈ l)) as [Hl|Hl].
      * rewrite decide_True; [done | by right].
      * destruct (decide (x = q)) as [->|Hq].
        -- rewrite decide_True by left. apply lookup_delete_eq.
        -- rewrite decide_False by (rewrite elem_of_cons; by intros [?|?]).
           by apply lookup_delete_ne.
Qed.

Lemma filter_not_self (l : list positive) : filter (fun x => x ∉ l) l = [].
Proof.
  apply filter_none. intros x Hx Hn. by apply Hn.
Qed.

Lemma nil_of_no_elem (l : list positive) : (forall x, x ∉ l) -> l = [].
Proof.
  destruct l as [|x l]; [done|]. intros H. exfalso. apply (H x). left.
Qed.

(** The outer loop, from any state and over any list of bucket indices. *)
Lemma clear_chains (l : list Z) (s : state) :
  let s' := fold_left clear_chain l s in
  term_cache s' = term_cache s /\
  (forall k x, x ∈ chain s' k -> x ∈ chain s k) /\
  (forall x, heap s !! x = None -> heap s' !! x = None) /\
  (forall x, timers s !! x = None -> timers s' !! x = None) /\
  (forall i, i ∈ l -> chain s' i = []) /\
  (forall i x, i ∈ l -> x ∈ chain s i ->
               heap s' !! x = None /\ timers s' !! x = None).
Proof.
  revert s. induction l as [|i l IH]; intros s; simpl.
  - repeat apply conj; try done.
    + intros i Hi. by apply elem_of_nil in Hi.
    + intros i x Hi. by apply elem_of_nil in Hi.
  - destruct (clear_entries (chain s i) s) as (Hc1 & Hch1 & Hh1 & Ht1).
    fold (clear_chain s i) in Hc1, Hch1, Hh1, Ht1.
    destruct (IH (clear_chain s i)) as (Hc & Hsub & Hh & Ht & Hnil & Hdead).
    assert (Hsub1 : forall k x, x ∈ chain (clear_chain s i) k -> x ∈ chain s k).
    { intros k x. rewrite Hch1, list_elem_of_filter. by intros [_ ?]. }
    assert (Hdead1 : forall x, x ∈ chain s i ->
              heap (clear_chain s i) !! x = None /\ timers (clear_chain s i) !! x = None).
    { intros x Hx. rewrite Hh1, Ht1, !decide_True by done. done. }
    split; [congruence|]. split; [eauto|].
    split. { intros x Hx. apply Hh. rewrite Hh1. by destruct (decide _). }
    split. { intros x Hx. apply Ht. rewrite Ht1. by destruct (decide _). }
    split.
    + intros i' Hi'. apply elem_of_cons in Hi' as [->|Hi']; [|by apply Hnil].
      apply nil_of_no_elem. intros x Hx. apply Hsub in Hx.
      rewrite Hch1, filter_not_self in Hx. by apply elem_of_nil in Hx.
    + intros i' x Hi' Hx.
      destruct (decide (x ∈ chain s i)) as [Hin|Hin].
      { destruct (Hdead1 x Hin). split; [by apply Hh | by apply Ht]. }
      apply elem_of_cons in Hi' as [->|Hi']; [done|].
      apply (Hdead i' x Hi'). rewrite Hch1. apply list_elem_of_filter. done.
Qed.

Lemma seq_pass_S (n : nat) (s : state) (v : seq_v) (pos : Z) :
  seq_pass (S n) s v pos
  = term_seq_show s v ++
    match term_seq_next v pos with
    | (Some v', pos') => seq_pass n s v' pos'
    | (None, _) => []
    end.
Proof. reflexivity. Qed.

(** The listing, in full: the header, then the rows of bucket 0, of bucket 1
    and so on up to bucket 255; 257 steps are enough for the pass. *)
Lemma seq_pass_heads (s : state) (n : nat) (pos : Z) :
  0 <= pos -> (0 < n)%nat -> pos + Z.of_nat n = TERM_HASH_SIZE ->
  seq_pass n s (Head pos) pos
  = flat_map (fun i => show_chain s 0 (chain s i)) (seqZ pos (Z.of_nat n)).
Proof.
  revert pos. induction n as [|n IH]; intros pos Hpos Hn Hsum; [lia|].
  rewrite seqZ_cons by lia. rewrite seq_pass_S.
  cbn [flat_map term_seq_show term_seq_next]. f_equal.
  destruct n as [|n'].
  - assert ((pos + 1 >=? TERM_HASH_SIZE) = true) as -> by lia. reflexivity.
  - assert ((pos + 1 >=? TERM_HASH_SIZE) = false) as -> by lia.
    rewrite IH by lia. do 2 f_equal; lia.
Qed.

Lemma enumerate_eq (s : state) :
  enumerate s
  = Header :: flat_map (fun i => show_chain s 0 (chain s i)) (seqZ 0 TERM_HASH_SIZE).
Proof.
  unfold enumerate. change (term_seq_start 0) with (Some SEQ_START_TOKEN).
  cbv iota beta. rewrite seq_pass_S.
  cbn [term_seq_show term_seq_next app].
  change (0 >=? TERM_HASH_SIZE) with false. cbv iota.
  rewrite seq_pass_heads; [| lia | apply Nat.lt_0_succ | by vm_compute].
  replace (Z.of_nat 256) with TERM_HASH_SIZE by (by vm_compute).
  reflexivity.
Qed.

Lemma flat_map_nil {A B} (f : A -> list B) (l : list A) :
  (forall x, x ∈ l -> f x = []) -> flat_map f l = [].
Proof.
  induction l as [|x l IH]; intros H; simpl; [done|].
  rewrite (H x) by left. apply IH. intros y Hy. apply H. by right.
Qed.

(** Every record that was linked is freed by [term_clear], and its timer
    deleted; every bucket is left empty. *)
Lemma term_clear_frees (s : state) (p : positive) :
  term_cache s = true -> p ∈ all_terms s ->
  heap (term_clear s) !! p = None /\ timers (term_clear s) !! p = None.
Proof.
  intros Hc Hp. unfold term_clear. rewrite Hc.
  destruct (clear_chains (seqZ 0 TERM_HASH_SIZE) s) as (_ & _ & _ & _ & _ & Hdead).
  apply elem_of_all_terms in Hp as (i & Hi & Hp).
  eapply Hdead; [|exact Hp]. apply elem_of_seqZ. lia.
Qed.

Lemma term_clear_empties (s : state) (i : Z) :
  term_cache s = true -> 0 <= i < TERM_HASH_SIZE -> chain (term_clear s) i = [].
Proof.
  intros Hc Hi. unfold term_clear. rewrite Hc.
  destruct (clear_chains (seqZ 0 TERM_HASH_SIZE) s) as (_ & _ & _ & _ & Hnil & _).
  apply Hnil. apply elem_of_seqZ. lia.
Qed.

(** C7.  After [term_clear] on an initialised module: the listing is the
    header alone (no terminal row), no bucket holds a record, the lookup of
    every address returns NULL, and every record that was linked has been
    freed and its timer deleted. *)
Theorem term_clear_complete (s : state) :
  term_cache s = true ->
  let s' := term_clear s in
  enumerate s' = [Header] /\ rows (enumerate s') = [] /\
  all_terms s' = [] /\
  (forall m, find_term_by_mac s' m = None) /\
  (forall p, p ∈ all_terms s -> heap s' !! p = None /\ timers s' !! p = None).
Proof.
  intros Hc. cbv zeta.
  assert (Hnil : forall i, i ∈ seqZ 0 TERM_HASH_SIZE -> chain (term_clear s) i = []).
  { intros i Hi. apply term_clear_empties; [done|]. apply elem_of_seqZ in Hi. lia. }
  assert (Henum : enumerate (term_clear s) = [Header]).
  { rewrite enumerate_eq. f_equal. apply flat_map_nil.
    intros i Hi. by rewrite (Hnil i Hi). }
  repeat apply conj.
  - exact Henum.
  - by rewrite Henum.
  - unfold all_terms. apply flat_map_nil. exact Hnil.
  - intros m. unfold find_term_by_mac.
    rewrite term_clear_empties; [done | done | apply term_mac_hash_range].
  - intros p Hp. by apply term_clear_frees.
Qed.

(** ** Insertion and lookup *)

Lemma add_term_Some (s : state) (m : mac_addr) (ip : Z) (p : positive) :
  add_term s m ip (Some p)
  = (0, State (jiffies s) (term_cache s)
              (<[p := new_term s m ip]> (heap s))
              (hlist_add_head p (term_mac_hash m) (table s))
              (<[p := ulong (jiffies s + u32 (TERM_TTL * HZ))]> (delete p (timers s)))).
Proof. reflexivity. Qed.

Lemma chain_add_head (s : state) (p : positive) (h k : Z) jf c hp tm :
  chain (State jf c hp (hlist_add_head p h (table s)) tm) k
  = if decide (k = h) then p :: chain s h else chain s k.
Proof.
  unfold chain, hlist_add_head; simpl. destruct (decide (k = h)) as [->|Hk].
  - by rewrite lookup_insert_eq.
  - by rewrite lookup_insert_ne.
Qed.

Lemma add_term_chain (s : state) (m : mac_addr) (ip : Z) (p : positive) (k : Z) :
  chain (add_term s m ip (Some p)).2 k
  = if decide (k = term_mac_hash m) then p :: chain s (term_mac_hash m)
    else chain s k.
Proof. rewrite add_term_Some. apply chain_add_head. Qed.

Lemma add_term_heap (s : state) (m : mac_addr) (ip : Z) (p : positive) :
  heap (add_term s m ip (Some p)).2 = <[p := new_term s m ip]> (heap s).
Proof. reflexivity. Qed.

(** The lookup of an address right after its insertion returns the new
    record. *)
Lemma find_after_add (s : state) (m : mac_addr) (ip : Z) (p : positive) :
  find_term_by_mac (add_term s m ip (Some p)).2 m = Some p.
Proof.
  unfold find_term_by_mac. rewrite add_term_chain, decide_True by done.
  rewrite add_term_heap. simpl. rewrite lookup_insert_eq. simpl.
  assert (ether_addr_equal m m = true) as -> by by apply ether_addr_equal_true.
  reflexivity.
Qed.

(** C10.  [add_term] does not look for the address first.  On an address
    that is already present, and given an object by the allocator, it
    returns 0 and links a second record at the head of the same bucket; the
    lookup then returns the new record, with the new [ip], while the older
    record stays linked behind it, live and unchanged. *)
Theorem add_term_duplicate (s : state) (m : mac_addr) (ip1 : Z) (p q : positive) :
  heap s !! p = None ->
  find_term_by_mac s m = Some q ->
  let r := add_term s m ip1 (Some p) in
  r.1 = 0 /\
  chain r.2 (term_mac_hash m) = p :: chain s (term_mac_hash m) /\
  find_term_by_mac r.2 m = Some p /\
  heap r.2 !! p = Some (new_term s m ip1) /\
  q <> p /\ q ∈ chain r.2 (term_mac_hash m) /\
  (exists t, heap r.2 !! q = Some t /\ heap s !! q = Some t /\ mac t = m).
Proof.
  intros Hfresh Hq. cbv zeta.
  apply hlist_find_Some in Hq as (Hin & t & Ht & Hm).
  assert (Hne : q <> p) by congruence.
  repeat apply conj.
  - reflexivity.
  - by rewrite add_term_chain, decide_True.
  - apply find_after_add.
  - rewrite add_term_heap. apply lookup_insert_eq.
  - exact Hne.
  - rewrite add_term_chain, decide_True by done. by right.
  - exists t. rewrite add_term_heap, lookup_insert_ne by done. done.
Qed.

(** C5, as the code has it.  What [find_term_by_mac] returns is the address
    of a record linked in the bucket of the address asked for, the record
    itself and no copy: a later [term_mark] shows through it, and after
    [term_clear] it points at a freed object. *)
Theorem find_term_by_mac_live (s : state) (m : mac_addr) (p : positive) :
  find_term_by_mac s m = Some p ->
  p ∈ chain s (term_mac_hash m) /\ p ∈ all_terms s /\
  (exists t, heap s !! p = Some t /\ mac t = m /\
     forall authed,
       heap (term_mark s m authed).2 !! p = Some (set_authed authed t)) /\
  (term_cache s = true -> heap (term_clear s) !! p = None).
Proof.
  intros Hf. pose proof Hf as Hf'. unfold find_term_by_mac in Hf'.
  apply hlist_find_Some in Hf' as (Hin & t & Ht & Hm).
  assert (Hall : p ∈ all_terms s).
  { apply elem_of_all_terms. exists (term_mac_hash m).
    split; [apply term_mac_hash_range | done]. }
  repeat apply conj; try done.
  - exists t. repeat apply conj; try done.
    intros authed. unfold term_mark. unfold find_term_by_mac in Hf.
    rewrite Hf. simpl. by rewrite lookup_alter_eq, Ht.
  - intros Hc. by apply term_clear_frees.
Qed.

(** ** The control file *)

(** C4, as the code has it.  A write of [size > 0] bytes that are readable
    returns the number of bytes it took: [size] itself up to 128, and 128
    for anything longer.  The command in the buffer, well formed or not,
    has no part in the result, and the result is no error code. *)
Theorem proc_term_write_returns (s : state) (stack buf : list Z) (size : Z) :
  0 < size -> size <= Z.of_nat (length buf) ->
  (proc_term_write s stack buf size).1 = Z.min size 128.
Proof.
  intros Hpos Hlen. unfold proc_term_write.
  assert ((size =? 0) = false) as -> by lia.
  destruct (size >? 128) eqn:Hbig.
  - assert ((Z.of_nat (length buf) <? 128) = false) as -> by lia.
    replace (Z.min size 128) with 128 by lia.
    destruct (strncmp _ _ _ =? 0); [done|].
    destruct (sscanf_mac _); [|done].
    destruct (_ =? 43); [done|]. destruct (_ =? 45); done.
  - assert ((Z.of_nat (length buf) <? size) = false) as -> by lia.
    replace (Z.min size 128) with size by lia.
    destruct (strncmp _ _ _ =? 0); [done|].
    destruct (sscanf_mac _); [|done].
    destruct (_ =? 43); [done|]. destruct (_ =? 45); done.
Qed.

(** ** The timer callback *)

(** C2, first half, as the code has it.  When the timer of a record fires
    while [TERM_ACTIVE] is set in its [flags], the callback rearms the timer
    one TTL ahead, but the bit it clears is in the [active] member: [flags]
    is written back as it was, the active flag still set. *)
Theorem term_timer_timeout_active (s : state) (p : positive) (t : terminal) :
  heap s !! p = Some t ->
  Z.land (flags t) TERM_ACTIVE <> 0 ->
  let s' := term_timer_timeout s p in
  heap s' !! p = Some (with_active (Z.land (active t) (Z.lnot TERM_ACTIVE)) t) /\
  flags <$> heap s' !! p = Some (flags t) /\
  timers s' !! p = Some (ulong (jiffies s + u32 (TERM_TTL * HZ))) /\
  table s' = table s.
Proof.
  intros Ht Hact. cbv zeta. unfold term_timer_timeout. rewrite Ht.
  apply Z.eqb_neq in Hact. rewrite Hact. simpl.
  rewrite !lookup_insert_eq. done.
Qed.

(** The other branch: when the timer fires while [TERM_ACTIVE] is clear in
    [flags], the callback unlinks the record, frees it, and arms nothing. *)
Lemma term_timer_timeout_idle (s : state) (p : positive) (t : terminal) :
  heap s !! p = Some t ->
  Z.land (flags t) TERM_ACTIVE = 0 ->
  let s' := term_timer_timeout s p in
  heap s' !! p = None /\ (p ∉ all_terms s') /\ timers s' = timers s.
Proof.
  intros Ht Hidle. cbv zeta. unfold term_timer_timeout. rewrite Ht, Hidle. simpl.
  repeat apply conj.
  - apply lookup_delete_eq.
  - rewrite elem_of_all_terms. intros (i & _ & Hp).
    rewrite chain_hlist_del, list_elem_of_filter in Hp. by destruct Hp as [Hp _].
  - reflexivity.
Qed.

(** ** Uniqueness of hardware addresses *)

Lemma omap_ext_in {A B} (f g : A -> option B) (l : list A) :
  (forall x, x ∈ l -> f x = g x) -> omap f l = omap g l.
Proof.
  induction l as [|x l IH]; intros Hfg; [done|].
  change (omap f (x :: l)) with (from_option (fun y => y :: omap f l) (omap f l) (f x)).
  change (omap g (x :: l)) with (from_option (fun y => y :: omap g l) (omap g l) (g x)).
  rewrite (Hfg x) by left. rewrite IH; [done|].
  intros y Hy. apply Hfg. by right.
Qed.

Lemma flat_map_ext_in {A B} (f g : A -> list B) (l : list A) :
  (forall x, x ∈ l -> f x = g x) -> flat_map f l = flat_map g l.
Proof.
  induction l as [|x l IH]; intros Hfg; [done|]. simpl.
  rewrite (Hfg x) by left. rewrite IH; [done|].
  intros y Hy. apply Hfg. by right.
Qed.

(** Putting one more element at the head of one bucket puts one more element
    in the concatenation of the buckets. *)
Lemma flat_map_cons_at {A} (f g : Z -> list A) (l : list Z) (h : Z) (p : A) :
  NoDup l -> h ∈ l -> g h = p :: f h -> (forall k, k <> h -> g k = f k) ->
  flat_map g l ≡ₚ p :: flat_map f l.
Proof.
  intros Hnd Hh Hgh Hg. induction l as [|k l IH]; [by apply elem_of_nil in Hh|].
  apply NoDup_cons in Hnd as [Hk Hnd]. simpl.
  destruct (decide (k = h)) as [->|Hne].
  - rewrite Hgh. simpl. f_equiv.
    rewrite (flat_map_ext_in g f l); [done|].
    intros x Hx. apply Hg. congruence.
  - apply elem_of_cons in Hh as [Hh|Hh]; [congruence|].
    rewrite (Hg k Hne), (IH Hnd Hh). symmetry. apply Permutation_middle.
Qed.

Lemma add_term_all_terms (s : state) (m : mac_addr) (ip : Z) (p : positive) :
  all_terms (add_term s m ip (Some p)).2 ≡ₚ p :: all_terms s.
Proof.
  unfold all_terms.
  apply (flat_map_cons_at _ _ _ (term_mac_hash m)).
  - apply NoDup_seqZ.
  - apply elem_of_seqZ. pose proof (term_mac_hash_range m). lia.
  - by rewrite add_term_chain, decide_True.
  - intros k Hk. by rewrite add_term_chain, decide_False.
Qed.

Lemma linked_live_fresh (s : state) (p q : positive) :
  linked_live s -> heap s !! p = None -> q ∈ all_terms s -> q <> p.
Proof.
  intros Hl Hp Hq ->. unfold linked_live in Hl. rewrite Forall_forall in Hl.
  destruct (Hl p Hq) as [t Ht]. congruence.
Qed.

(** One insertion adds one entry, the inserted address, to the addresses of
    the linked records. *)
Lemma add_term_live_macs (s : state) (m : mac_addr) (ip : Z) (p : positive) :
  linked_live s -> heap s !! p = None ->
  live_macs (add_term s m ip (Some p)).2 ≡ₚ m :: live_macs s.
Proof.
  intros Hl Hp. unfold live_macs. rewrite add_term_all_terms, add_term_heap.
  simpl. rewrite lookup_insert_eq. simpl. f_equiv.
  apply reflexive_eq. apply omap_ext_in. intros q Hq.
  rewrite lookup_insert_ne; [done|].
  intros ->. by apply (linked_live_fresh s q q).
Qed.

Lemma add_term_linked_live (s : state) (m : mac_addr) (ip : Z) (a : option positive) :
  linked_live s -> linked_live (add_term s m ip a).2.
Proof.
  intros Hl. destruct a as [p|]; [|done].
  unfold linked_live. rewrite add_term_all_terms, add_term_heap.
  apply Forall_cons. split.
  - rewrite lookup_insert_eq. eauto.
  - unfold linked_live in Hl. rewrite Forall_forall in Hl |- *.
    intros q Hq. destruct (decide (p = q)) as [->|Hne].
    + rewrite lookup_insert_eq. eauto.
    + rewrite lookup_insert_ne by done. auto.
Qed.

Lemma add_terms_cons (s : state) (op : mac_addr * Z * option positive) ops :
  add_terms s (op :: ops) = add_terms (add_term s op.1.1 op.1.2 op.2).2 ops.
Proof. reflexivity. Qed.

(** C1, as the code has it.  [add_term] never looks an address up before
    linking a record for it, so the table has one record per address only
    as long as callers insert each address once: starting from a table with
    distinct addresses, a run of insertions of pairwise distinct addresses,
    none of them present at the start, leaves a table with distinct
    addresses. *)
Theorem add_terms_unique (s : state) (ops : list (mac_addr * Z * option positive)) :
  linked_live s ->
  NoDup (live_macs s) ->
  allocs_fresh s ops ->
  NoDup (ops.*1.*1) ->
  (forall m, m ∈ ops.*1.*1 -> m ∉ live_macs s) ->
  NoDup (live_macs (add_terms s ops)).
Proof.
  revert s. induction ops as [|[[m ip1] a] ops IH]; intros s Hl Hnd Hfr Hops Hnew.
  - exact Hnd.
  - rewrite add_terms_cons. simpl in *. destruct Hfr as [Hfr1 Hfr].
    apply NoDup_cons in Hops as [Hm Hops].
    apply IH; try done.
    + by apply add_term_linked_live.
    + destruct a as [p|]; [|done].
      rewrite add_term_live_macs by auto.
      apply NoDup_cons. split; [|done]. apply Hnew. left.
    + intros m' Hm'. destruct a as [p|].
      * rewrite add_term_live_macs by auto.
        apply not_elem_of_cons. split; [by intros ->|]. apply Hnew. by right.
      * apply Hnew. by right.
Qed.

(** ** Expiry *)

Lemma same_at_refl p s : same_at p s s.
Proof. by repeat apply conj. Qed.

Lemma same_at_trans p s1 s2 s3 :
  same_at p s1 s2 -> same_at p s2 s3 -> same_at p s1 s3.
Proof.
  intros (H1 & H2 & H3 & H4) (G1 & G2 & G3 & G4). repeat apply conj.
  - congruence.
  - congruence.
  - intros i. rewrite G3. apply H3.
  - congruence.
Qed.

(** The callback of one record leaves every other record alone. *)
Lemma term_timer_timeout_other (s : state) (p q : positive) :
  q <> p -> same_at p s (term_timer_timeout s q).
Proof.
  intros Hne. unfold term_timer_timeout.
  destruct (heap s !! q) as [t|]; [|apply same_at_refl].
  destruct (Z.land (flags t) TERM_ACTIVE =? 0).
  - repeat apply conj; simpl.
    + by apply lookup_delete_ne.
    + done.
    + intros i. rewrite chain_hlist_del, list_elem_of_filter.
      split; [by intros [_ ?] | intros Hp; split; [congruence | done]].
    + done.
  - repeat apply conj; simpl.
    + by apply lookup_insert_ne.
    + by apply lookup_insert_ne.
    + done.
    + done.
Qed.

Lemma expire_timer_other (s : state) (p q : positive) :
  q <> p -> same_at p s (expire_timer s q).
Proof.
  intros Hne. unfold expire_timer.
  destruct (timers s !! q) as [e|]; [|apply same_at_refl].
  destruct (time_after_eq (jiffies s) e); [|apply same_at_refl].
  eapply same_at_trans; [|by apply term_timer_timeout_other].
  repeat apply conj; simpl; try done. by apply lookup_delete_ne.
Qed.










Lemma tick_eq s : tick s = run_timers (bump s).
Proof. reflexivity. Qed.

Lemma advance_S n s : advance (S n) s = tick (advance n s).
Proof. reflexivity. Qed.

Section Arithmetic.

(** The tick rate and word size of any kernel build: a TTL of ticks fits
    the 32-bit product with room to spare, and [unsigned long] has at least
    32 bits. *)
Hypothesis HZ_pos : 0 < HZ.
Hypothesis ttl_small : TERM_TTL * HZ < 2 ^ 31.
Hypothesis long_bits : 32 <= BITS_PER_LONG.














End Arithmetic.

(** ** The table stays well formed

    [table_wf] is what the hypotheses of the theorems above ask of a table.
    It holds of the empty table and every function of the module keeps it,
    the allocator handing out objects that are not in use. *)

Lemma table_wf_intro (s : state) :
  (forall i p, 0 <= i < TERM_HASH_SIZE -> p ∈ chain s i ->
     exists t, heap s !! p = Some t /\ term_mac_hash (mac t) = i) ->
  table_wf s.
Proof.
  intros H. unfold table_wf. apply Forall_forall. intros i Hi.
  apply elem_of_seqZ in Hi. apply Forall_forall. intros p Hp.
  destruct (H i p ltac:(lia) Hp) as (t & Ht & Hh). rewrite Ht. simpl. by rewrite Hh.
Qed.

Lemma table_wf_linked_live (s : state) : table_wf s -> linked_live s.
Proof.
  intros Hwf. unfold linked_live. apply Forall_forall. intros p Hp.
  apply elem_of_all_terms in Hp as (i & Hi & Hp).
  destruct (table_wf_chain s i p Hwf Hi Hp) as (t & Ht & _). eauto.
Qed.

Lemma table_wf_init (now : Z) : table_wf (term_init now).
Proof.
  apply table_wf_intro. intros i p _ Hp. unfold chain in Hp. simpl in Hp.
  rewrite lookup_empty in Hp. by apply elem_of_nil in Hp.
Qed.

Lemma table_wf_add_term (s : state) (m : mac_addr) (ip1 : Z) (a : option positive) :
  table_wf s -> (forall p, a = Some p -> heap s !! p = None) ->
  table_wf (add_term s m ip1 a).2.
Proof.
  intros Hwf Hfresh. destruct a as [p|]; [|done].
  specialize (Hfresh p eq_refl). apply table_wf_intro. intros i q Hi Hq.
  rewrite add_term_chain in Hq. rewrite add_term_heap.
  assert (Hold : forall k, 0 <= k < TERM_HASH_SIZE -> q ∈ chain s k ->
            exists t, <[p := new_term s m ip1]> (heap s) !! q = Some t /\
                      term_mac_hash (mac t) = k).
  { intros k Hk Hqk. destruct (table_wf_chain s k q Hwf Hk Hqk) as (t & Ht & Hh).
    exists t. rewrite lookup_insert_ne by congruence. done. }
  destruct (decide (i = term_mac_hash m)) as [->|Hne]; [|by apply Hold].
  apply elem_of_cons in Hq as [->|Hq]; [|by apply Hold].
  exists (new_term s m ip1). by rewrite lookup_insert_eq.
Qed.

Lemma table_wf_term_mark (s : state) (m : mac_addr) (authed : Z) :
  table_wf s -> table_wf (term_mark s m authed).2.
Proof.
  intros Hwf. unfold term_mark.
  destruct (hlist_find (heap s) m (chain s (term_mac_hash m))) as [p|]; [|done].
  apply table_wf_intro. intros i q Hi Hq. simpl.
  destruct (table_wf_chain s i q Hwf Hi Hq) as (t & Ht & Hh).
  rewrite lookup_alter. destruct (decide (p = q)) as [->|Hne].
  - rewrite Ht. simpl. eauto.
  - eauto.
Qed.

Lemma table_wf_term_clear (s : state) : table_wf s -> table_wf (term_clear s).
Proof.
  intros Hwf. destruct (term_cache s) eqn:Hc.
  - apply table_wf_intro. intros i p Hi Hp.
    rewrite term_clear_empties in Hp by done. by apply elem_of_nil in Hp.
  - unfold term_clear. by rewrite Hc.
Qed.

Lemma table_wf_term_timer_timeout (s : state) (p : positive) :
  table_wf s -> table_wf (term_timer_timeout s p).
Proof.
  intros Hwf. unfold term_timer_timeout.
  destruct (heap s !! p) as [t|] eqn:Ht; [|done].
  destruct (Z.land (flags t) TERM_ACTIVE =? 0).
  - apply table_wf_intro. intros i q Hi Hq.
    rewrite chain_hlist_del, list_elem_of_filter in Hq. destruct Hq as [Hne Hq].
    destruct (table_wf_chain s i q Hwf Hi Hq) as (u & Hu & Hh).
    exists u. simpl. by rewrite lookup_delete_ne.
  - apply table_wf_intro. intros i q Hi Hq. simpl.
    change (q ∈ chain s i) in Hq.
    destruct (table_wf_chain s i q Hwf Hi Hq) as (u & Hu & Hh).
    destruct (decide (p = q)) as [->|Hne].
    + rewrite lookup_insert_eq. assert (u = t) as -> by congruence. eauto.
    + rewrite lookup_insert_ne by done. eauto.
Qed.

Lemma table_wf_expire_timer (s : state) (p : positive) :
  table_wf s -> table_wf (expire_timer s p).
Proof.
  intros Hwf. unfold expire_timer. destruct (timers s !! p) as [e|]; [|done].
  destruct (time_after_eq (jiffies s) e); [|done].
  apply table_wf_term_timer_timeout. exact Hwf.
Qed.

Lemma table_wf_tick (s : state) : table_wf s -> table_wf (tick s).
Proof.
  intros Hwf. rewrite tick_eq. unfold run_timers.
  assert (Hb : table_wf (bump s)) by exact Hwf.
  generalize dependent (bump s). intros s'. generalize (due s').
  intros l. revert s'. induction l as [|q l IH]; intros s' Hs'; [done|].
  simpl. apply IH. by apply table_wf_expire_timer.
Qed.

Lemma table_wf_advance (n : nat) (s : state) : table_wf s -> table_wf (advance n s).
Proof.
  intros Hwf. induction n as [|n IH]; [done|].
  rewrite advance_S. by apply table_wf_tick.
Qed.

Lemma table_wf_proc_term_write (s : state) (stack buf : list Z) (size : Z) :
  table_wf s -> table_wf (proc_term_write s stack buf size).2.
Proof.
  intros Hwf. unfold proc_term_write.
  destruct (size =? 0); [done|].
  destruct (Z.of_nat (length buf) <? _); [done|].
  destruct (strncmp _ _ _ =? 0); [by apply table_wf_term_clear|].
  destruct (sscanf_mac _); [|done].
  destruct (_ =? 43); [by apply table_wf_term_mark|].
  destruct (_ =? 45); [by apply table_wf_term_mark|]. done.
Qed.

(** * Further properties of the module *)

(** ** Hashing *)

(** The bucket index is always inside [term_mac_hash_table], whatever the
    hash and the seed, and only bytes 2..5 of the address take part in it:
    the first two bytes of the vendor prefix never change the bucket. *)
Theorem term_mac_hash_bucket (m m' : mac_addr) :
  0 <= term_mac_hash m < TERM_HASH_SIZE /\
  (m2 m = m2 m' -> m3 m = m3 m' -> m4 m = m4 m' -> m5 m = m5 m' ->
   term_mac_hash m = term_mac_hash m').
Proof.
  split; [apply term_mac_hash_range|].
  intros H2 H3 H4 H5. unfold term_mac_hash, get_unaligned_u32.
  by rewrite H2, H3, H4, H5.
Qed.

(** ** Marking *)

Lemma land_lor_same (x a : Z) : Z.land (Z.lor x a) a = a.
Proof.
  apply Z.bits_inj'. intros n Hn. rewrite Z.land_spec, Z.lor_spec.
  destruct (Z.testbit x n), (Z.testbit a n); reflexivity.
Qed.

Lemma land_lnot_same (f a : Z) : Z.land (Z.land f (Z.lnot a)) a = 0.
Proof. rewrite <- Z.land_assoc, (Z.land_comm (Z.lnot a)), Z.land_lnot_diag. apply Z.land_0_r. Qed.

Lemma set_authed_last (a b : Z) (t : terminal) :
  set_authed b (set_authed a t) = set_authed b t.
Proof.
  unfold set_authed, with_flags; simpl. f_equal.
  destruct (a =? 0); destruct (b =? 0);
    rewrite ?land_land_same, ?land_lor_lnot; reflexivity.
Qed.

Lemma term_mark_find (s : state) (m m' : mac_addr) (authed : Z) :
  find_term_by_mac (term_mark s m authed).2 m' = find_term_by_mac s m'.
Proof.
  unfold term_mark.
  destruct (hlist_find (heap s) m (chain s (term_mac_hash m))) as [p|]; [|done].
  unfold find_term_by_mac; simpl. unfold chain at 1; simpl.
  fold (chain s (term_mac_hash m')).
  apply hlist_find_alter. apply mac_set_authed.
Qed.

(** [term_mark] answers 0 exactly for the addresses some linked record
    carries and -1 for all others, and a call that answers -1 has changed
    nothing. *)
Theorem term_mark_result (s : state) (m : mac_addr) (authed : Z) :
  table_wf s ->
  ((term_mark s m authed).1 = 0 <-> m ∈ live_macs s) /\
  ((term_mark s m authed).1 = -1 <-> m ∉ live_macs s) /\
  ((term_mark s m authed).1 = -1 -> (term_mark s m authed).2 = s).
Proof.
  intros Hwf. pose proof (term_mac_hash_range m) as Hr.
  unfold term_mark.
  destruct (hlist_find (heap s) m (chain s (term_mac_hash m))) as [p|] eqn:E; simpl.
  - apply hlist_find_Some in E as (Hp & t & Ht & Hm).
    assert (Hlive : m ∈ live_macs s).
    { unfold live_macs. apply list_elem_of_omap. exists p. split.
      - apply elem_of_all_terms. eauto.
      - by rewrite Ht, <- Hm. }
    split; [done|]. split; [|done].
    split; [done | intros Hn; by destruct Hn].
  - assert (Hdead : m ∉ live_macs s).
    { intros Hm. apply live_mac_inv in Hm as (i & p & t & Hi & Hp & Ht & Hm).
      destruct (table_wf_chain s i p Hwf Hi Hp) as (t0 & Ht0 & Hh).
      assert (t0 = t) as -> by congruence. rewrite Hm in Hh. subst i.
      eapply hlist_find_None in E; eauto. }
    split; [|done].
    split; [done | intros Hm; by destruct Hdead].
Qed.

(** Marking and asking: once an address that is present has been marked
    authenticated, [term_is_authd] answers 1 for it (the mask not being
    zero), and once it has been marked denied, 0. *)
Theorem term_mark_then_is_authd (s : state) (m : mac_addr) (p : positive) :
  TERM_AUTHED <> 0 ->
  find_term_by_mac s m = Some p ->
  term_is_authd (term_mark_authed s m).2 m = 1 /\
  term_is_authd (term_mark_denied s m).2 m = 0.
Proof.
  intros HA Hf. pose proof Hf as Hf'. unfold find_term_by_mac in Hf'.
  apply hlist_find_Some in Hf' as (_ & t & Ht & _).
  assert (Hheap : forall authed,
            heap (term_mark s m authed).2 !! p = Some (set_authed authed t)).
  { intros authed. unfold term_mark. unfold find_term_by_mac in Hf.
    rewrite Hf. simpl. by rewrite lookup_alter_eq, Ht. }
  unfold term_mark_authed, term_mark_denied, term_is_authd.
  rewrite !term_mark_find, Hf, !Hheap. unfold set_authed; simpl.
  apply Z.eqb_neq in HA. rewrite HA.
  rewrite land_lor_same, land_lnot_same. by rewrite HA.
Qed.

(** Marking one address leaves the lookup of every address as it was, and
    the answer of [term_is_authd] for every other address. *)
Theorem term_mark_other (s : state) (m m' : mac_addr) (authed : Z) :
  m' <> m ->
  find_term_by_mac (term_mark s m authed).2 m' = find_term_by_mac s m' /\
  term_is_authd (term_mark s m authed).2 m' = term_is_authd s m'.
Proof.
  intros Hne. split; [apply term_mark_find|].
  unfold term_is_authd. rewrite term_mark_find.
  destruct (find_term_by_mac s m') as [q|] eqn:Hq; [|done].
  unfold find_term_by_mac in Hq. apply hlist_find_Some in Hq as (_ & u & Hu & Hmu).
  unfold term_mark.
  destruct (hlist_find (heap s) m (chain s (term_mac_hash m))) as [p|] eqn:E; [|done].
  apply hlist_find_Some in E as (_ & t & Ht & Hm). simpl.
  rewrite lookup_alter_ne; [done|]. intros ->. congruence.
Qed.

(** Two marks of the same address in a row amount to the second one: the
    last decision wins, whatever the first was. *)
Theorem term_mark_last_wins (s : state) (m : mac_addr) (a b : Z) :
  term_mark (term_mark s m a).2 m b = term_mark s m b.
Proof.
  unfold term_mark at 2 3.
  destruct (hlist_find (heap s) m (chain s (term_mac_hash m))) as [p|] eqn:E; simpl.
  - unfold term_mark; simpl. unfold chain at 1; simpl. fold (chain s (term_mac_hash m)).
    rewrite hlist_find_alter by apply mac_set_authed. rewrite E.
    do 2 f_equal. apply map_eq. intros q. rewrite !lookup_alter.
    destruct (decide (p = q)) as [<-|]; [|done].
    rewrite decide_True by done.
    destruct (heap s !! p); simpl; [|done].
    by rewrite set_authed_last.
  - unfold term_mark. by rewrite E.
Qed.

(** ** Insertion *)

Lemma hlist_find_insert_fresh h (p : positive) (t : terminal) (m' : mac_addr) l :
  h !! p = None -> mac t <> m' ->
  hlist_find (<[p := t]> h) m' l = hlist_find h m' l.
Proof.
  intros Hp Hm. induction l as [|q l IH]; simpl; [done|].
  destruct (decide (q = p)) as [->|Hne].
  - rewrite lookup_insert_eq, Hp.
    apply ether_addr_equal_false in Hm. by rewrite Hm.
  - rewrite lookup_insert_ne by done. by rewrite IH.
Qed.

(** Insert, then look up: the lookup of the inserted address returns the new
    record, which carries the given [ip], is not authenticated, and has its
    timer armed one TTL ahead. *)
Theorem add_term_lookup (s : state) (m : mac_addr) (ip1 : Z) (p : positive) :
  let s' := (add_term s m ip1 (Some p)).2 in
  (add_term s m ip1 (Some p)).1 = 0 /\
  find_term_by_mac s' m = Some p /\
  heap s' !! p = Some (new_term s m ip1) /\
  term_is_authd s' m = 0 /\
  timers s' !! p = Some (ulong (jiffies s + u32 (TERM_TTL * HZ))).
Proof.
  cbv zeta. repeat apply conj.
  - reflexivity.
  - apply find_after_add.
  - rewrite add_term_heap. apply lookup_insert_eq.
  - unfold term_is_authd. rewrite find_after_add, add_term_heap, lookup_insert_eq.
    reflexivity.
  - rewrite add_term_Some. simpl. apply lookup_insert_eq.
Qed.

(** Inserting one address changes nothing for the others: their lookup
    returns what it returned, and so does [term_is_authd]. *)
Theorem add_term_other (s : state) (m m' : mac_addr) (ip1 : Z) (p : positive) :
  heap s !! p = None -> m' <> m ->
  find_term_by_mac (add_term s m ip1 (Some p)).2 m' = find_term_by_mac s m' /\
  term_is_authd (add_term s m ip1 (Some p)).2 m' = term_is_authd s m'.
Proof.
  intros Hp Hne.
  assert (Hfind : find_term_by_mac (add_term s m ip1 (Some p)).2 m'
                  = find_term_by_mac s m').
  { unfold find_term_by_mac. rewrite add_term_chain, add_term_heap.
    destruct (decide (term_mac_hash m' = term_mac_hash m)) as [He|_].
    - rewrite <- He. cbn [hlist_find]. rewrite lookup_insert_eq. simpl.
      assert (ether_addr_equal m m' = false) as ->
        by (apply ether_addr_equal_false; congruence).
      apply hlist_find_insert_fresh; [done | simpl; congruence].
    - apply hlist_find_insert_fresh; [done | simpl; congruence]. }
  split; [exact Hfind|].
  unfold term_is_authd. rewrite Hfind.
  destruct (find_term_by_mac s m') as [q|] eqn:Hq; [|done].
  unfold find_term_by_mac in Hq. apply hlist_find_Some in Hq as (_ & u & Hu & _).
  rewrite add_term_heap, lookup_insert_ne; [done|]. intros ->. congruence.
Qed.

(** An insertion links exactly one more record, the new one, or, when the
    allocator has nothing to give, returns [-ENOMEM] and leaves the module
    as it was. *)
Theorem add_term_count (s : state) (m : mac_addr) (ip1 : Z) (p : positive) :
  add_term s m ip1 None = (- ENOMEM, s) /\
  all_terms (add_term s m ip1 (Some p)).2 ≡ₚ p :: all_terms s /\
  length (all_terms (add_term s m ip1 (Some p)).2) = S (length (all_terms s)).
Proof.
  repeat apply conj.
  - reflexivity.
  - apply add_term_all_terms.
  - by rewrite add_term_all_terms.
Qed.

(** ** Clearing twice *)

Lemma clear_chains_empty (l : list Z) (s : state) :
  (forall i, i ∈ l -> chain s i = []) -> fold_left clear_chain l s = s.
Proof.
  induction l as [|i l IH]; intros H; [done|]. cbn [fold_left].
  assert (clear_chain s i = s) as ->.
  { unfold clear_chain. rewrite (H i) by left. reflexivity. }
  apply IH. intros k Hk. apply H. by right.
Qed.

Lemma term_clear_cache (s : state) : term_cache (term_clear s) = term_cache s.
Proof.
  unfold term_clear. destruct (term_cache s) eqn:Hc; [|done].
  destruct (clear_chains (seqZ 0 TERM_HASH_SIZE) s) as (H & _). by rewrite H.
Qed.

(** [term_clear] on a table it has just cleared changes nothing. *)
Theorem term_clear_idempotent (s : state) :
  term_clear (term_clear s) = term_clear s.
Proof.
  destruct (term_cache s) eqn:Hc.
  - unfold term_clear at 1. rewrite term_clear_cache, Hc.
    apply clear_chains_empty. intros i Hi. apply term_clear_empties; [done|].
    apply elem_of_seqZ in Hi. lia.
  - unfold term_clear. by rewrite Hc, Hc.
Qed.

(** ** The listing *)

Lemma show_chain_macs (s : state) (a : Z) (l : list positive) :
  omap row_mac (show_chain s a l) = omap (fun p => mac <$> heap s !! p) l.
Proof.
  revert a. induction l as [|p l IH]; intros a; [done|].
  cbn [show_chain]. destruct (heap s !! p) as [t|] eqn:Ht.
  - rewrite (omap_cons_Some row_mac _ _ (mac t)) by done.
    rewrite (omap_cons_Some _ p l (mac t)) by (by rewrite Ht).
    by rewrite IH.
  - rewrite (omap_cons_None _ p l) by (by rewrite Ht). apply IH.
Qed.

Lemma omap_flat_map {A B C} (f : B -> option C) (g : A -> list B) (l : list A) :
  omap f (flat_map g l) = flat_map (fun x => omap f (g x)) l.
Proof.
  induction l as [|x l IH]; [done|]. simpl. by rewrite omap_app, IH.
Qed.

(** The listing shows one row for every linked record, bucket by bucket and
    within a bucket in chain order, each with the hardware address of its
    record; the header is the only other line. *)
Theorem enumerate_macs (s : state) :
  omap row_mac (enumerate s) = live_macs s /\
  length (rows (enumerate s)) = length (live_macs s).
Proof.
  assert (Hm : omap row_mac (enumerate s) = live_macs s).
  { rewrite enumerate_eq. rewrite (omap_cons_None row_mac Header) by done.
    unfold live_macs, all_terms. rewrite !omap_flat_map.
    apply flat_map_ext_in. intros i _. apply show_chain_macs. }
  split; [exact Hm|]. rewrite <- Hm.
  generalize (enumerate s). intros ls. unfold rows.
  induction ls as [|[|m ip1 r x secs au] ls IH]; [done| |].
  - rewrite filter_cons_False by (simpl; auto).
    rewrite (omap_cons_None row_mac Header) by done. exact IH.
  - rewrite filter_cons_True by done.
    rewrite (omap_cons_Some row_mac _ _ m) by done. simpl. by rewrite IH.
Qed.

(** The rows of one chain, from a given value of the local [authed]. *)
Lemma show_chain_authed_from (s : state) (l : list positive) (k : nat) (a : Z)
    (p : positive) (t : terminal) :
  Forall (fun q => is_Some (heap s !! q)) l ->
  a = 0 \/ a = 1 ->
  l !! k = Some p -> heap s !! p = Some t ->
  exists au,
    show_chain s a l !! k
    = Some (Row (mac t) (ip t) (rx (flow t)) (tx (flow t))
                (ulong (jiffies s - j t) / HZ) au) /\
    (au = 1 <-> a = 1 \/ Exists (authed_rec s) (take (S k) l)) /\
    (au = 0 \/ au = 1).
Proof.
  revert k a. induction l as [|q l IH]; intros k a Hl Ha Hk Ht; [done|].
  apply Forall_cons in Hl as [[u Hu] Hl]. cbn [show_chain]. rewrite Hu.
  set (a' := if Z.land (flags u) TERM_AUTHED =? 0 then a else 1).
  assert (Ha' : a' = 0 \/ a' = 1).
  { unfold a'. destruct (_ =? 0); [done | by right]. }
  assert (Hstep : a' = 1 <-> a = 1 \/ authed_rec s q).
  { unfold a', authed_rec. destruct (Z.land (flags u) TERM_AUTHED =? 0) eqn:E.
    - apply Z.eqb_eq in E. split; [by left|]. intros [?|(u' & Hu' & Hne)]; [done|].
      assert (u' = u) as -> by congruence. done.
    - apply Z.eqb_neq in E. split; [|done]. intros _. right. eauto. }
  destruct k as [|k].
  - simpl in Hk. injection Hk as ->. assert (u = t) as -> by congruence.
    exists a'. split; [done|]. split; [|done].
    rewrite Hstep. cbn [take]. rewrite Exists_cons, Exists_nil.
    split; [intros [?|?]; auto | intros [?|[?|[]]]; auto].
  - simpl in Hk. destruct (IH k a' Hl Ha' Hk Ht) as (au & Hrow & Hau & H01).
    exists au. split; [exact Hrow|]. split; [|done].
    rewrite Hau, Hstep. change (take (S (S k)) (q :: l)) with (q :: take (S k) l).
    rewrite Exists_cons.
    split; [intros [[?|?]|?]; auto | intros [?|[?|?]]; auto].
Qed.

(** The Authed column.  In a well-formed table the row of the record at
    place [k] of a chain shows that record's address, [ip], counters and
    age, and it shows 1 under Authed exactly when that record or one before
    it in the same chain has [TERM_AUTHED] set: the local [authed] of
    [term_seq_show] is set and never reset, so one authenticated record
    marks all the rows after it in its bucket. *)
Theorem term_seq_show_authed (s : state) (i : Z) (k : nat) (p : positive) :
  table_wf s -> 0 <= i < TERM_HASH_SIZE ->
  chain s i !! k = Some p ->
  exists t au,
    heap s !! p = Some t /\
    term_seq_show s (Head i) !! k
    = Some (Row (mac t) (ip t) (rx (flow t)) (tx (flow t))
                (ulong (jiffies s - j t) / HZ) au) /\
    (au = 1 <-> Exists (authed_rec s) (take (S k) (chain s i))) /\
    (au = 0 \/ au = 1).
Proof.
  intros Hwf Hi Hk.
  assert (Hl : Forall (fun q => is_Some (heap s !! q)) (chain s i)).
  { apply Forall_forall. intros q Hq.
    destruct (table_wf_chain s i q Hwf Hi Hq) as (t & Ht & _). eauto. }
  assert (Hp : p ∈ chain s i) by (apply list_elem_of_lookup; eauto).
  destruct (table_wf_chain s i p Hwf Hi Hp) as (t & Ht & _).
  destruct (show_chain_authed_from s (chain s i) k 0 p t Hl (or_introl eq_refl) Hk Ht)
    as (au & Hrow & Hau & H01).
  exists t, au. repeat apply conj; try done.
  - intros H. apply Hau in H as [?|?]; [discriminate | done].
  - intros H. apply Hau. by right.
Qed.

Lemma seq_pass_enough (s : state) (n : nat) (pos : Z) :
  0 <= pos < TERM_HASH_SIZE -> TERM_HASH_SIZE - pos <= Z.of_nat n ->
  seq_pass n s (Head pos) pos
  = flat_map (fun i => show_chain s 0 (chain s i)) (seqZ pos (TERM_HASH_SIZE - pos)).
Proof.
  revert pos. induction n as [|n IH]; intros pos Hpos Hn; [lia|].
  rewrite seqZ_cons by lia. rewrite seq_pass_S.
  cbn [flat_map term_seq_show term_seq_next]. f_equal.
  destruct (decide (pos + 1 = TERM_HASH_SIZE)) as [He|Hne].
  - assert ((pos + 1 >=? TERM_HASH_SIZE) = true) as -> by lia.
    replace (Z.pred (TERM_HASH_SIZE - pos)) with 0 by lia. reflexivity.
  - assert ((pos + 1 >=? TERM_HASH_SIZE) = false) as -> by lia.
    rewrite IH by lia. do 2 f_equal; lia.
Qed.

(** A read resumed at a position inside the bucket array lists the buckets
    from that position to the last one and no header; resumed at or past
    the end of the array it lists nothing. *)
Theorem listing_from_position (s : state) (pos : Z) :
  0 < pos ->
  (pos < TERM_HASH_SIZE ->
   listing_from s pos
   = flat_map (fun i => term_seq_show s (Head i)) (seqZ pos (TERM_HASH_SIZE - pos))) /\
  (TERM_HASH_SIZE <= pos -> listing_from s pos = []).
Proof.
  intros Hpos. unfold listing_from, term_seq_start.
  assert ((pos =? 0) = false) as -> by lia. split.
  - intros Hlt. assert ((pos >=? TERM_HASH_SIZE) = false) as -> by lia.
    apply seq_pass_enough; [lia|]. change TERM_HASH_SIZE with 256. lia.
  - intros Hge. by assert ((pos >=? TERM_HASH_SIZE) = true) as -> by lia.
Qed.

(** ** More of the control file *)

Lemma proc_term_write_cases (s : state) (stack buf : list Z) (size : Z) :
  let r := proc_term_write s stack buf size in
  (size = 0 /\ r = (- EINVAL, s)) \/
  (size <> 0 /\ Z.of_nat (length buf) < Z.min size 128 /\ r = (- EFAULT, s)) \/
  (size <> 0 /\ Z.min size 128 <= Z.of_nat (length buf) /\ r.1 = Z.min size 128).
Proof.
  cbv zeta. unfold proc_term_write.
  destruct (size =? 0) eqn:E0.
  { apply Z.eqb_eq in E0. by left. }
  apply Z.eqb_neq in E0. right.
  assert (Hs' : (if size >? 128 then 128 else size) = Z.min size 128)
    by (destruct (size >? 128) eqn:?; lia).
  rewrite Hs'.
  destruct (Z.of_nat (length buf) <? Z.min size 128) eqn:Elen.
  { left. repeat apply conj; [done | lia | done]. }
  right. split; [done|]. split; [lia|].
  destruct (strncmp _ _ _ =? 0); [done|].
  destruct (sscanf_mac _); [|done].
  destruct (_ =? 43); [done|]. destruct (_ =? 45); done.
Qed.

(** When a write fails: only for an empty write ([-EINVAL]) or an unreadable
    buffer ([-EFAULT]); a failed write has changed nothing, and every other
    write returns the length it took. *)
Theorem proc_term_write_error (s : state) (stack buf : list Z) (size : Z) :
  0 <= size ->
  let r := proc_term_write s stack buf size in
  (r.1 = - EINVAL <-> size = 0) /\
  (r.1 = - EFAULT <-> 0 < size /\ Z.of_nat (length buf) < Z.min size 128) /\
  (r.1 < 0 -> r.2 = s) /\
  (r.1 = - EINVAL \/ r.1 = - EFAULT \/ r.1 = Z.min size 128).
Proof.
  intros Hsize. cbv zeta.
  destruct (proc_term_write_cases s stack buf size)
    as [[H0 ->]|[(H0 & Hlen & ->)|(H0 & Hlen & Hr)]]; unfold EINVAL, EFAULT in *; simpl.
  - repeat apply conj; first [done | lia | by left].
  - repeat apply conj; first [done | lia | by right; left].
  - rewrite Hr. repeat apply conj; first [lia | by right; right].
Qed.

Lemma strncmp_clear (data : list Z) :
  take 5 data = str_clear -> strncmp data str_clear 5 = 0.
Proof.
  destruct data as [|c0 [|c1 [|c2 [|c3 [|c4 rest]]]]]; try discriminate.
  simpl. intros [= -> -> -> -> ->]. reflexivity.
Qed.

(** The clear command.  A readable write of six bytes or more that starts
    with the five letters of "clear" runs [term_clear], whatever follows
    them, and returns the length it took. *)
Theorem proc_term_write_clear (s : state) (stack buf : list Z) (size : Z) :
  6 <= size -> size <= Z.of_nat (length buf) ->
  take 5 buf = str_clear ->
  proc_term_write s stack buf size = (Z.min size 128, term_clear s).
Proof.
  intros Hsize Hlen Hbuf. unfold proc_term_write.
  assert ((size =? 0) = false) as -> by lia.
  set (size' := if size >? 128 then 128 else size).
  assert (Hs' : size' = Z.min size 128) by (unfold size'; destruct (size >? 128) eqn:?; lia).
  assert ((Z.of_nat (length buf) <? size') = false) as -> by lia.
  assert (Hdata : take 5 (poke (size' - 1) 0 (copy_bytes stack buf size')) = str_clear).
  { unfold poke, copy_bytes. rewrite take_insert_ge by lia.
    rewrite take_app_le by (rewrite length_take; lia).
    rewrite take_take. replace (5 `min` Z.to_nat size')%nat with 5%nat by lia.
    exact Hbuf. }
  rewrite (strncmp_clear _ Hdata). simpl. by rewrite Hs'.
Qed.

(** Five bytes are not enough: the last byte of a write is overwritten with
    the terminating NUL before the command is read, so a write of exactly
    the five letters of "clear" is not the clear command, and, its first
    byte being no sign, changes nothing. *)
Theorem proc_term_write_clear_short (s : state) (stack buf : list Z) :
  take 5 buf = str_clear ->
  proc_term_write s stack buf 5 = (5, s).
Proof.
  intros Hbuf. unfold proc_term_write.
  destruct buf as [|c0 [|c1 [|c2 [|c3 [|c4 rest]]]]]; try discriminate.
  injection Hbuf as -> -> -> -> ->.
  change (5 =? 0) with false. change (5 >? 128) with false. cbv iota.
  assert ((Z.of_nat (length (99 :: 108 :: 101 :: 97 :: 114 :: rest)) <? 5) = false) as ->
    by (cbn [length]; apply Z.ltb_ge; lia).
  change (poke (5 - 1) 0 (copy_bytes stack (99 :: 108 :: 101 :: 97 :: 114 :: rest) 5))
    with (99 :: 108 :: 101 :: 97 :: 0 :: drop 5 stack).
  change (strncmp _ str_clear 5 =? 0) with false. cbv iota.
  destruct (sscanf_mac _); reflexivity.
Qed.

Lemma records_kept_refl (s : state) : records_kept s s.
Proof.
  repeat apply conj; try done. intros p t Ht. exists t. by repeat apply conj.
Qed.

Lemma records_kept_term_mark (s : state) (m : mac_addr) (authed : Z) :
  records_kept s (term_mark s m authed).2.
Proof.
  unfold term_mark.
  destruct (hlist_find (heap s) m (chain s (term_mac_hash m))) as [p|];
    [|apply records_kept_refl].
  repeat apply conj; try done. simpl. intros q t' Hq.
  rewrite lookup_alter in Hq. destruct (decide (p = q)) as [->|Hne].
  - destruct (heap s !! q) as [t|]; simpl in Hq; [|done].
    injection Hq as <-. exists t. repeat apply conj; try done.
    apply set_authed_other_bits.
  - exists t'. by repeat apply conj.
Qed.

Lemma clear_chains_heap (l : list Z) (s : state) (x : positive) (t : terminal) :
  heap (fold_left clear_chain l s) !! x = Some t -> heap s !! x = Some t.
Proof.
  revert s. induction l as [|i l IH]; intros s H; [done|].
  cbn [fold_left] in H. apply IH in H.
  destruct (clear_entries (chain s i) s) as (_ & _ & Hh & _).
  fold (clear_chain s i) in Hh. rewrite Hh in H. by destruct (decide _).
Qed.

Lemma clear_chains_jiffies (l : list Z) (s : state) :
  jiffies (fold_left clear_chain l s) = jiffies s.
Proof.
  revert s. induction l as [|i l IH]; intros s; [done|].
  cbn [fold_left]. rewrite IH. unfold clear_chain.
  generalize (chain s i). intros c. revert s. induction c as [|q c IHc]; intros s; [done|].
  cbn [fold_left]. by rewrite IHc.
Qed.

Lemma records_kept_term_clear (s : state) : records_kept s (term_clear s).
Proof.
  unfold term_clear. destruct (term_cache s); [|apply records_kept_refl].
  destruct (clear_chains (seqZ 0 TERM_HASH_SIZE) s) as (_ & Hsub & _).
  repeat apply conj.
  - apply clear_chains_jiffies.
  - exact Hsub.
  - intros p t' Hp. apply clear_chains_heap in Hp. exists t'. by repeat apply conj.
Qed.

(** What no write can do.  Whatever bytes are written to the control file,
    afterwards no record is linked that was not linked before, no object
    exists that did not exist before, and an object that is still there has
    the [mac], [ip], counters, creation time and [active] member it had,
    and the [flags] it had outside [TERM_AUTHED]. *)
Theorem proc_term_write_keeps_records (s : state) (stack buf : list Z) (size : Z) :
  records_kept s (proc_term_write s stack buf size).2.
Proof.
  unfold proc_term_write.
  destruct (size =? 0); [apply records_kept_refl|].
  destruct (Z.of_nat (length buf) <? _); [apply records_kept_refl|].
  destruct (strncmp _ _ _ =? 0); [apply records_kept_term_clear|].
  destruct (sscanf_mac _); [|apply records_kept_refl].
  destruct (_ =? 43); [apply records_kept_term_mark|].
  destruct (_ =? 45); [apply records_kept_term_mark|]. apply records_kept_refl.
Qed.

(** ** The bookkeeping of the registry *)

Lemma filter_flat_map {A B} (P : B -> Prop) `{!forall x, Decision (P x)}
    (g : A -> list B) (l : list A) :
  filter P (flat_map g l) = flat_map (fun x => filter P (g x)) l.
Proof.
  induction l as [|x l IH]; [done|]. simpl. by rewrite list.filter_app, IH.
Qed.

Lemma all_terms_hlist_del (s : state) (p : positive) jf c h tm :
  all_terms (State jf c h (hlist_del p (table s)) tm)
  = filter (fun x => x <> p) (all_terms s).
Proof.
  unfold all_terms. rewrite filter_flat_map. apply flat_map_ext_in.
  intros i _. unfold chain, hlist_del; simpl. rewrite lookup_fmap.
  destruct (table s !! i); reflexivity.
Qed.

Lemma all_terms_same_table s s' : table s' = table s -> all_terms s' = all_terms s.
Proof.
  intros H. unfold all_terms. apply flat_map_ext_in. intros i _.
  by apply chain_same_table.
Qed.

Lemma registry_ok_init (now : Z) : registry_ok (term_init now).
Proof.
  assert (Hall : all_terms (term_init now) = []).
  { unfold all_terms. apply flat_map_nil. intros i _. unfold chain. simpl.
    by rewrite lookup_empty. }
  split; [|split; [|split; [|intros p; split]]].
  - apply table_wf_init.
  - rewrite Hall. apply NoDup_nil_2.
  - intros p [t Ht]. simpl in Ht. by rewrite lookup_empty in Ht.
  - rewrite Hall. intros Hp. by apply elem_of_nil in Hp.
  - intros [e He]. simpl in He. by rewrite lookup_empty in He.
Qed.

Lemma registry_ok_add_term (s : state) (m : mac_addr) (ip1 : Z) (a : option positive) :
  registry_ok s -> (forall p, a = Some p -> heap s !! p = None) ->
  registry_ok (add_term s m ip1 a).2.
Proof.
  intros (Hwf & Hnd & Hlive & Htm) Hfresh.
  assert (Hwf' := table_wf_add_term s m ip1 a Hwf Hfresh).
  destruct a as [p|]; [|done].
  specialize (Hfresh p eq_refl).
  assert (Hp : p ∉ all_terms s).
  { intros Hp. pose proof (table_wf_linked_live s Hwf) as Hl.
    by apply (linked_live_fresh s p p Hl Hfresh). }
  pose proof (add_term_all_terms s m ip1 p) as Hperm.
  split; [|split; [|split; [|intros q; split]]].
  - exact Hwf'.
  - rewrite Hperm. by apply NoDup_cons.
  - intros q Hq. rewrite Hperm. rewrite add_term_heap in Hq.
    destruct (decide (q = p)) as [->|Hne]; [left|].
    rewrite lookup_insert_ne in Hq by done. right. by apply Hlive.
  - rewrite Hperm, add_term_Some. simpl. intros Hq.
    apply elem_of_cons in Hq as [->|Hq].
    + rewrite lookup_insert_eq. eauto.
    + assert (q <> p) by congruence.
      rewrite lookup_insert_ne, lookup_delete_ne by done. by apply Htm.
  - rewrite Hperm, add_term_Some. simpl. intros Hq.
    destruct (decide (q = p)) as [->|Hne]; [left|].
    rewrite lookup_insert_ne, lookup_delete_ne in Hq by done.
    right. by apply Htm.
Qed.

Lemma registry_ok_term_mark (s : state) (m : mac_addr) (authed : Z) :
  registry_ok s -> registry_ok (term_mark s m authed).2.
Proof.
  intros (Hwf & Hnd & Hlive & Htm).
  assert (Hwf' := table_wf_term_mark s m authed Hwf). revert Hwf'.
  unfold term_mark.
  destruct (hlist_find (heap s) m (chain s (term_mac_hash m))) as [p|]; [|done].
  simpl. intros Hwf'.
  assert (Hall : all_terms (State (jiffies s) (term_cache s)
                   (alter (set_authed authed) p (heap s)) (table s) (timers s))
                 = all_terms s) by (by apply all_terms_same_table).
  split; [|split; [|split; [|intros q; split]]]; rewrite ?Hall; try done.
  - intros q [t' Hq]. simpl in Hq. apply Hlive.
    rewrite lookup_alter in Hq. destruct (decide (p = q)) as [->|Hne]; [|eauto].
    destruct (heap s !! q); [eauto | done].
  - by apply Htm.
  - by apply Htm.
Qed.

Lemma clear_chains_timers (l : list Z) (s : state) (x : positive) (e : Z) :
  timers (fold_left clear_chain l s) !! x = Some e -> timers s !! x = Some e.
Proof.
  revert s. induction l as [|i l IH]; intros s H; [done|].
  cbn [fold_left] in H. apply IH in H.
  destruct (clear_entries (chain s i) s) as (_ & _ & _ & Ht).
  fold (clear_chain s i) in Ht. rewrite Ht in H. by destruct (decide _).
Qed.

Lemma registry_ok_term_clear (s : state) : registry_ok s -> registry_ok (term_clear s).
Proof.
  intros Hok. pose proof Hok as (Hwf & Hnd & Hlive & Htm).
  destruct (term_cache s) eqn:Hc; [|unfold term_clear; by rewrite Hc].
  assert (Hall : all_terms (term_clear s) = []).
  { unfold all_terms. apply flat_map_nil. intros i Hi.
    apply term_clear_empties; [done|]. apply elem_of_seqZ in Hi. lia. }
  split; [|split; [|split; [|intros p; split]]]; rewrite ?Hall.
  - by apply table_wf_term_clear.
  - apply NoDup_nil_2.
  - intros p [t Ht]. exfalso.
    assert (Hs : heap s !! p = Some t).
    { unfold term_clear in Ht. rewrite Hc in Ht. by apply clear_chains_heap in Ht. }
    destruct (term_clear_frees s p Hc) as [Hfree _]; [apply Hlive; eauto|].
    congruence.
  - intros Hp. by apply elem_of_nil in Hp.
  - intros [e He]. exfalso.
    assert (Hs : timers s !! p = Some e).
    { unfold term_clear in He. rewrite Hc in He. by apply clear_chains_timers in He. }
    destruct (term_clear_frees s p Hc) as [_ Hfree]; [apply Htm; eauto|].
    congruence.
Qed.

Lemma registry_ok_proc_term_write (s : state) (stack buf : list Z) (size : Z) :
  registry_ok s -> registry_ok (proc_term_write s stack buf size).2.
Proof.
  intros Hok. unfold proc_term_write.
  destruct (size =? 0); [done|].
  destruct (Z.of_nat (length buf) <? _); [done|].
  destruct (strncmp _ _ _ =? 0); [by apply registry_ok_term_clear|].
  destruct (sscanf_mac _); [|done].
  destruct (_ =? 43); [by apply registry_ok_term_mark|].
  destruct (_ =? 45); [by apply registry_ok_term_mark|]. done.
Qed.

Lemma registry_ok_expire_timer (s : state) (p : positive) :
  registry_ok s -> registry_ok (expire_timer s p).
Proof.
  intros Hok. pose proof Hok as (Hwf & Hnd & Hlive & Htm).
  pose proof (table_wf_expire_timer s p Hwf) as Hwf'. revert Hwf'.
  unfold expire_timer. destruct (timers s !! p) as [e|] eqn:He; [|done].
  destruct (time_after_eq (jiffies s) e); [|done].
  assert (Hp : p ∈ all_terms s) by (apply Htm; eauto).
  assert (Hl : is_Some (heap s !! p)).
  { pose proof (table_wf_linked_live s Hwf) as Hll. unfold linked_live in Hll.
    rewrite Forall_forall in Hll. by apply Hll. }
  destruct Hl as [t Ht]. unfold term_timer_timeout. simpl. rewrite Ht.
  destruct (Z.land (flags t) TERM_ACTIVE =? 0); intros Hwf'.
  - split; [|split; [|split; [|intros q; split]]];
      rewrite ?all_terms_hlist_del; simpl.
    + exact Hwf'.
    + by apply list.NoDup_filter.
    + intros q [u Hq]. apply list_elem_of_filter.
      destruct (decide (q = p)) as [->|Hne]; [by rewrite lookup_delete_eq in Hq|].
      rewrite lookup_delete_ne in Hq by done. split; [done | apply Hlive; eauto].
    + intros Hq. apply list_elem_of_filter in Hq as [Hne Hq].
      rewrite lookup_delete_ne by done. by apply Htm.
    + intros [e' Hq]. apply list_elem_of_filter.
      destruct (decide (q = p)) as [->|Hne]; [by rewrite lookup_delete_eq in Hq|].
      rewrite lookup_delete_ne in Hq by done. split; [done | apply Htm; eauto].
  - unfold term_timer_refresh, mod_timer. simpl.
    set (s' := State _ _ _ _ _) in *.
    assert (Hall : all_terms s' = all_terms s) by (by apply all_terms_same_table).
    split; [|split; [|split; [|intros q; split]]]; rewrite ?Hall; try done.
    + intros q [u Hq]. subst s'. simpl in Hq.
      destruct (decide (q = p)) as [->|Hne]; [done|].
      rewrite lookup_insert_ne in Hq by done. apply Hlive; eauto.
    + intros Hq. subst s'. simpl.
      destruct (decide (q = p)) as [->|Hne]; [rewrite lookup_insert_eq; eauto|].
      rewrite lookup_insert_ne, lookup_delete_ne by done. by apply Htm.
    + intros [e' Hq]. subst s'. simpl in Hq.
      destruct (decide (q = p)) as [->|Hne]; [done|].
      rewrite lookup_insert_ne, lookup_delete_ne in Hq by done. apply Htm; eauto.
Qed.

Lemma registry_ok_tick (s : state) : registry_ok s -> registry_ok (tick s).
Proof.
  intros Hok. rewrite tick_eq. unfold run_timers.
  assert (Hb : registry_ok (bump s)) by exact Hok.
  generalize dependent (bump s). intros s'. generalize (due s').
  intros l. revert s'. induction l as [|q l IH]; intros s' Hs'; [done|].
  simpl. apply IH. by apply registry_ok_expire_timer.
Qed.

Lemma registry_ok_step (s s' : state) : step s s' -> registry_ok s -> registry_ok s'.
Proof.
  intros Hstep Hok. destruct Hstep.
  - by apply registry_ok_add_term.
  - by apply registry_ok_term_mark.
  - by apply registry_ok_term_clear.
  - by apply registry_ok_proc_term_write.
  - by apply registry_ok_tick.
Qed.

(** The bookkeeping holds in every state the module can reach from
    [term_init] by insertions, marks, clears, writes to the control file and
    timer interrupts: each linked record is live and in the bucket of its
    address, none is linked twice, no live object is left unlinked, and a
    timer is pending for a record exactly while the record is linked, so
    the callback never runs on a freed object and no record is left without
    its timer. *)
Theorem reachable_registry_ok (s : state) :
  reachable s -> registry_ok s.
Proof.
  intros [now Hr]. revert s Hr. apply (rtc_ind_r registry_ok (term_init now)).
  - apply registry_ok_init.
  - intros y z _ Hstep IH. by apply (registry_ok_step y z).
Qed.

(** ** Records that stay *)

Lemma stays_at_expire_timer (p q : positive) (t : terminal) (s s' : state) :
  Z.land (flags t) TERM_ACTIVE <> 0 ->
  stays_at p t s s' -> stays_at p t s (expire_timer s' q).
Proof.
  intros Hact ((t' & Ht' & Hf & Hm & Hip) & Hc).
  destruct (decide (q = p)) as [->|Hne].
  - unfold expire_timer. destruct (timers s' !! p) as [e|]; [|by split; eauto].
    destruct (time_after_eq (jiffies s') e); [|by split; eauto].
    unfold term_timer_timeout. simpl. rewrite Ht'. rewrite Hf.
    apply Z.eqb_neq in Hact. rewrite Hact. simpl. split; [|done].
    exists (with_active (Z.land (active t') (Z.lnot TERM_ACTIVE)) t').
    unfold term_timer_refresh, mod_timer. simpl.
    rewrite lookup_insert_eq. done.
  - destruct (expire_timer_other s' p q Hne) as (Gh & _ & Gc & _). split.
    + exists t'. by rewrite Gh.
    + intros i Hi. apply Gc. by apply Hc.
Qed.

Lemma stays_at_tick (p : positive) (t : terminal) (s s' : state) :
  Z.land (flags t) TERM_ACTIVE <> 0 ->
  stays_at p t s s' -> stays_at p t s (tick s').
Proof.
  intros Hact Hs. rewrite tick_eq. unfold run_timers.
  assert (Hb : stays_at p t s (bump s')) by exact Hs.
  generalize dependent (bump s'). intros s''. generalize (due s'').
  intros l. revert s''. induction l as [|q l IH]; intros s'' Hs''; [done|].
  simpl. apply IH. by apply stays_at_expire_timer.
Qed.

(** A record with [TERM_ACTIVE] set in [flags] is never expired.  Its timer
    keeps firing, but the callback clears the bit in [active] and leaves
    [flags] alone, so each firing finds the record active again: after any
    number of ticks the record is live, linked where it was, with the
    [flags], [mac] and [ip] it had. *)
Theorem active_record_stays (s : state) (p : positive) (t : terminal) (n : nat) :
  heap s !! p = Some t ->
  Z.land (flags t) TERM_ACTIVE <> 0 ->
  (exists t', heap (advance n s) !! p = Some t' /\ flags t' = flags t /\
              mac t' = mac t /\ ip t' = ip t) /\
  (forall i, p ∈ chain s i -> p ∈ chain (advance n s) i).
Proof.
  intros Ht Hact. change (stays_at p t s (advance n s)).
  induction n as [|n IH].
  - split; [by exists t | done].
  - rewrite advance_S. by apply stays_at_tick.
Qed.

(** ** What lookups find, and what timers leave *)

(** [find_term_by_mac] returns NULL exactly for the addresses no linked
    record carries, and for an address that is present it returns a linked,
    live record with that address. *)
Theorem find_term_by_mac_present (s : state) (m : mac_addr) :
  table_wf s ->
  (find_term_by_mac s m = None <-> m ∉ live_macs s) /\
  (forall p, find_term_by_mac s m = Some p ->
     p ∈ all_terms s /\ mac <$> heap s !! p = Some m).
Proof.
  intros Hwf. pose proof (term_mac_hash_range m) as Hr. split.
  - split.
    + intros Hf Hm. apply live_mac_inv in Hm as (i & p & t & Hi & Hp & Ht & Hm).
      destruct (table_wf_chain s i p Hwf Hi Hp) as (t0 & Ht0 & Hh).
      assert (t0 = t) as -> by congruence. rewrite Hm in Hh. subst i.
      unfold find_term_by_mac in Hf. eapply hlist_find_None in Hf; eauto.
    + intros Hm. unfold find_term_by_mac. apply hlist_find_None.
      intros p t Hp Ht. eapply not_live_mac; eauto.
  - intros p Hf. unfold find_term_by_mac in Hf.
    apply hlist_find_Some in Hf as (Hp & t & Ht & Hm). split.
    + apply elem_of_all_terms. eauto.
    + by rewrite Ht, <- Hm.
Qed.

Lemma omap_sublist {A B} (f : A -> option B) (l1 l2 : list A) :
  l1 `sublist_of` l2 -> omap f l1 `sublist_of` omap f l2.
Proof.
  induction 1 as [|x l1 l2 _ IH|x l1 l2 _ IH]; [done| |].
  - destruct (f x) as [y|] eqn:E.
    + rewrite !(omap_cons_Some f x _ y E). by constructor.
    + by rewrite !(omap_cons_None f x _ E).
  - destruct (f x) as [y|] eqn:E.
    + rewrite (omap_cons_Some f x _ y E). by constructor.
    + by rewrite (omap_cons_None f x _ E).
Qed.

Lemma live_macs_term_timer_timeout (s : state) (p : positive) :
  live_macs (term_timer_timeout s p) `sublist_of` live_macs s.
Proof.
  unfold term_timer_timeout. destruct (heap s !! p) as [t|] eqn:Ht; [|done].
  destruct (Z.land (flags t) TERM_ACTIVE =? 0).
  - unfold live_macs. rewrite all_terms_hlist_del. simpl.
    rewrite (omap_ext_in _ (fun q => mac <$> heap s !! q)).
    + apply omap_sublist, sublist_filter.
    + intros q Hq. apply list_elem_of_filter in Hq as [Hne _].
      by rewrite lookup_delete_ne.
  - unfold term_timer_refresh, mod_timer, live_macs. simpl.
    match goal with |- omap ?f (all_terms ?s') `sublist_of` _ =>
      replace (all_terms s') with (all_terms s) by (symmetry; by apply all_terms_same_table)
    end.
    rewrite (omap_ext_in _ (fun q => mac <$> heap s !! q)); [done|].
    intros q _. simpl. destruct (decide (q = p)) as [->|Hne].
    + by rewrite lookup_insert_eq, Ht.
    + by rewrite lookup_insert_ne.
Qed.

Lemma live_macs_same (s s' : state) :
  heap s' = heap s -> table s' = table s -> live_macs s' = live_macs s.
Proof.
  intros Hh Ht. unfold live_macs. by rewrite Hh, (all_terms_same_table s s' Ht).
Qed.

Lemma live_macs_expire_timer (s : state) (p : positive) :
  live_macs (expire_timer s p) `sublist_of` live_macs s.
Proof.
  unfold expire_timer. destruct (timers s !! p) as [e|]; [|done].
  destruct (time_after_eq (jiffies s) e); [|done].
  etrans; [apply live_macs_term_timer_timeout|].
  by rewrite (live_macs_same s).
Qed.

Lemma live_macs_tick (s : state) : live_macs (tick s) `sublist_of` live_macs s.
Proof.
  rewrite tick_eq. unfold run_timers.
  assert (Hb : live_macs (bump s) `sublist_of` live_macs s)
    by (by rewrite (live_macs_same s)).
  generalize dependent (bump s). intros s'. generalize (due s').
  intros l. revert s'. induction l as [|q l IH]; intros s' Hs'; [done|].
  simpl. apply IH. etrans; [apply live_macs_expire_timer | done].
Qed.

(** Timers only take away.  After any number of ticks the addresses in the
    table are a sublist of the addresses that were there: no address
    appears, none changes, and addresses that were pairwise distinct stay
    so. *)
Theorem advance_live_macs (s : state) (n : nat) :
  live_macs (advance n s) `sublist_of` live_macs s /\
  (NoDup (live_macs s) -> NoDup (live_macs (advance n s))).
Proof.
  assert (H : live_macs (advance n s) `sublist_of` live_macs s).
  { induction n as [|n IH]; [done|]. rewrite advance_S.
    etrans; [apply live_macs_tick | done]. }
  split; [done|]. intros Hnd. by apply (sublist_NoDup _ _ Hnd).
Qed.

End TermManage.

Unset Default Proof Using.

(** * The module on a concrete kernel

    The functions instantiated at [Kernel], two hardware addresses, and a
    few tables built with [add_term] from the empty one, on which the
    theorems above are applied and the functions run. *)

Local Abbreviation k_hash :=
  (term_mac_hash Kernel.jhash_1word Kernel.hash_rnd Kernel.big_endian).
Local Abbreviation k_find :=
  (find_term_by_mac Kernel.jhash_1word Kernel.hash_rnd Kernel.big_endian).
Local Abbreviation k_add_term :=
  (add_term Kernel.jhash_1word Kernel.hash_rnd Kernel.big_endian
            Kernel.HZ Kernel.BITS_PER_LONG).
Local Abbreviation k_add_terms :=
  (add_terms Kernel.jhash_1word Kernel.hash_rnd Kernel.big_endian
             Kernel.HZ Kernel.BITS_PER_LONG).
Local Abbreviation k_mark :=
  (term_mark Kernel.jhash_1word Kernel.hash_rnd Kernel.big_endian Kernel.TERM_AUTHED).
Local Abbreviation k_mark_authed :=
  (term_mark_authed Kernel.jhash_1word Kernel.hash_rnd Kernel.big_endian
                    Kernel.TERM_AUTHED).
Local Abbreviation k_is_authd :=
  (term_is_authd Kernel.jhash_1word Kernel.hash_rnd Kernel.big_endian
                 Kernel.TERM_AUTHED).
Local Abbreviation k_enumerate :=
  (enumerate Kernel.HZ Kernel.BITS_PER_LONG Kernel.TERM_AUTHED).
Local Abbreviation k_write :=
  (proc_term_write Kernel.jhash_1word Kernel.hash_rnd Kernel.big_endian
                   Kernel.TERM_AUTHED Kernel.sscanf_mac).
Local Abbreviation k_timeout :=
  (term_timer_timeout Kernel.HZ Kernel.BITS_PER_LONG Kernel.TERM_ACTIVE).
Local Abbreviation k_advance :=
  (advance Kernel.HZ Kernel.BITS_PER_LONG Kernel.TERM_ACTIVE).
Local Abbreviation k_table_wf :=
  (table_wf Kernel.jhash_1word Kernel.hash_rnd Kernel.big_endian).

(** aa:bb:cc:dd:ee:ff and 00:11:22:33:44:55; 10.0.0.5 and 10.0.0.6. *)
Local Abbreviation macA := (Mac 170 187 204 221 238 255).
Local Abbreviation macB := (Mac 0 17 34 51 68 85).
Local Abbreviation ipA := 167772165.
Local Abbreviation ipB := 167772166.

(** The empty table at boot; with [macA] inserted; with [macA] inserted a
    second time. *)
Local Abbreviation st0 := (term_init 0).
Local Abbreviation st1 := (k_add_term st0 macA ipA (Some 1%positive)).2.
Local Abbreviation st2 := (k_add_term st1 macA ipB (Some 2%positive)).2.

(** ** Running the code *)

Example hash_macA : k_hash macA = 240.
Proof. vm_compute. reflexivity. Qed.

Example lookup_st1 : k_find st1 macA = Some 1%positive /\ k_find st1 macB = None.
Proof. vm_compute. done. Qed.

Example listing_st1 :
  k_enumerate st1 = [Header; Row macA ipA 0 0 0 0].
Proof. vm_compute. reflexivity. Qed.

(** The sticky [authed] of [term_seq_show]: behind an authenticated record,
    a record of the same bucket that is not authenticated is listed with
    1 as well. *)
Example listing_sticky_authed :
  k_enumerate (k_mark_authed st2 macA).2
  = [Header; Row macA ipB 0 0 0 1; Row macA ipA 0 0 0 1].
Proof. vm_compute. reflexivity. Qed.

(** "+aa:bb:cc:dd:ee:ff" followed by a newline, as [echo] writes it. *)
Local Abbreviation cmd_plus :=
  [43; 97; 97; 58; 98; 98; 58; 99; 99; 58; 100; 100; 58; 101; 101; 58; 102; 102; 10].
(** "clear" followed by a newline. *)
Local Abbreviation cmd_clear := [99; 108; 101; 97; 114; 10].

Example write_plus :
  (k_write st1 (replicate 128 0) cmd_plus 19).1 = 19 /\
  k_is_authd st1 macA = 0 /\
  k_is_authd (k_write st1 (replicate 128 0) cmd_plus 19).2 macA = 1.
Proof. vm_compute. done. Qed.

Example write_clear :
  (k_write st2 (replicate 128 0) cmd_clear 6).1 = 6 /\
  all_terms (k_write st2 (replicate 128 0) cmd_clear 6).2 = [] /\
  heap (k_write st2 (replicate 128 0) cmd_clear 6).2 = ∅ /\
  timers (k_write st2 (replicate 128 0) cmd_clear 6).2 = ∅.
Proof. vm_compute. done. Qed.

(** A write of no byte is refused, and so is one from an unreadable
    buffer. *)
Example write_errors :
  (k_write st1 (replicate 128 0) [] 0).1 = - EINVAL /\
  (k_write st1 (replicate 128 0) [43; 97] 19).1 = - EFAULT.
Proof. vm_compute. done. Qed.

(** ** Counterexamples *)

(** C1: two insertions of aa:bb:cc:dd:ee:ff into the empty table leave two
    linked records, at addresses 2 and 1, both with that hardware address. *)
Lemma duplicate_macs :
  ~ NoDup (live_macs (k_add_terms st0 [(macA, ipA, Some 1%positive);
                                       (macA, ipB, Some 2%positive)])).
Proof.
  assert (live_macs (k_add_terms st0 [(macA, ipA, Some 1%positive);
                                      (macA, ipB, Some 2%positive)])
          = [macA; macA]) as -> by (vm_compute; reflexivity).
  intros H. apply NoDup_cons in H as [H _]. apply H. left.
Qed.


(** C4: a write of 200 readable bytes returns 128. *)
Lemma long_write_returns_128 :
  (k_write st0 (replicate 128 0) (replicate 200 120) 200).1 <> 200.
Proof. vm_compute. discriminate. Qed.

(** C5: the value the lookup returns is the address of the linked record.
    Reading [flags] through it gives 0 before and [TERM_AUTHED] after a
    [term_mark_authed], and after [term_clear] there is no object at that
    address. *)
Lemma lookup_returns_the_record :
  k_find st1 macA = Some 1%positive /\
  all_terms st1 = [1%positive] /\
  flags <$> heap st1 !! 1%positive = Some 0 /\
  flags <$> heap (k_mark_authed st1 macA).2 !! 1%positive = Some Kernel.TERM_AUTHED /\
  heap (term_clear st1) !! 1%positive = None.
Proof. repeat apply conj; vm_compute; reflexivity. Qed.

(** aa:bb:cc:dd:ee:ff inserted, marked authenticated, and inserted again: the
    record at address 1 is authenticated, the one at address 2, linked in
    front of it, is not. *)
Local Abbreviation st_shadow :=
  (k_add_term (k_mark_authed st1 macA).2 macA ipB (Some 2%positive)).2.

Lemma k_table_wf_st_shadow : k_table_wf st_shadow.
Proof.
  apply table_wf_add_term; [|intros p [= <-]; vm_compute; reflexivity].
  apply table_wf_term_mark.
  apply table_wf_add_term; [apply table_wf_init|].
  intros p [= <-]. vm_compute. reflexivity.
Qed.

(** C6: in that table, which is well formed, the address is present and the
    linked, live record at address 1 carries it with [TERM_AUTHED] set in
    [flags], yet [term_is_authd] answers 0: it looks at the record at
    address 2 only. *)
Lemma shadowed_authed_record :
  k_table_wf st_shadow /\
  all_terms st_shadow = [2%positive; 1%positive] /\
  heap st_shadow !! 1%positive = Some (Terminal macA ipA Kernel.TERM_AUTHED 0 (Flow 0 0) 0) /\
  Z.land Kernel.TERM_AUTHED Kernel.TERM_AUTHED <> 0 /\
  k_is_authd st_shadow macA = 0.
Proof.
  split; [exact k_table_wf_st_shadow|].
  repeat apply conj; try (vm_compute; reflexivity).
  vm_compute. discriminate.
Qed.


(** ** The theorems at work *)

(** A record with [TERM_ACTIVE] set in [flags], linked in its bucket, at
    the moment the kernel calls its timer callback. *)
Local Abbreviation active_term := (Terminal macA ipA Kernel.TERM_ACTIVE 0 (Flow 0 0) 0).
Local Abbreviation st_active :=
  (State 6000 true {[ 1%positive := active_term ]} {[ 240 := [1%positive] ]} ∅).

(** The empty table links nothing. *)
Lemma st0_linked_live : linked_live st0.
Proof. unfold linked_live. apply Forall_nil_2. Qed.

(** The table with aa:bb:cc:dd:ee:ff inserted twice is well formed. *)
Lemma k_table_wf_st2 : k_table_wf st2.
Proof.
  repeat (apply table_wf_add_term; [| intros p [= <-]; vm_compute; reflexivity]).
  apply table_wf_init.
Qed.

(** Inserting aa:bb:cc:dd:ee:ff and 00:11:22:33:44:55 into the empty table
    leaves distinct addresses. *)
Lemma add_terms_unique_witness :
  NoDup (live_macs (k_add_terms st0 [(macA, ipA, Some 1%positive);
                                     (macB, ipB, Some 2%positive)])).
Proof.
  apply (add_terms_unique Kernel.jhash_1word Kernel.hash_rnd Kernel.big_endian
           Kernel.HZ Kernel.BITS_PER_LONG st0).
  - exact st0_linked_live.
  - apply NoDup_nil_2.
  - simpl. repeat split; intros p [= <-]; vm_compute; reflexivity.
  - apply NoDup_cons. split; [|apply NoDup_singleton].
    intros H. apply list_elem_of_singleton in H. discriminate.
  - intros m _. apply not_elem_of_nil.
Defined.

(** The callback on a record with [flags = TERM_ACTIVE] at tick 6000: [flags]
    is still [TERM_ACTIVE] afterwards, and the timer is set for tick 12000. *)
Lemma term_timer_timeout_active_witness :
  Z.land (flags active_term) Kernel.TERM_ACTIVE <> 0 /\
  flags <$> heap (k_timeout st_active 1%positive) !! 1%positive
  = Some Kernel.TERM_ACTIVE /\
  timers (k_timeout st_active 1%positive) !! 1%positive = Some 12000.
Proof.
  assert (H1 : heap st_active !! 1%positive = Some active_term) by reflexivity.
  assert (H2 : Z.land (flags active_term) Kernel.TERM_ACTIVE <> 0) by (vm_compute; discriminate).
  split; [exact H2|].
  pose proof (term_timer_timeout_active Kernel.HZ Kernel.BITS_PER_LONG
                Kernel.TERM_ACTIVE st_active 1%positive active_term H1 H2) as H.
  destruct H as (_ & Hf & Ht & _). split; [exact Hf | exact Ht].
Defined.


(** Writing the six bytes of the clear command returns 6. *)
Lemma proc_term_write_returns_witness :
  0 < 6 /\ 6 <= Z.of_nat (length cmd_clear) /\
  (k_write st2 (replicate 128 0) cmd_clear 6).1 = Z.min 6 128.
Proof.
  assert (H1 : 0 < 6) by lia.
  assert (H2 : 6 <= Z.of_nat (length cmd_clear)) by (simpl; lia).
  repeat apply conj; [exact H1 | exact H2 |].
  exact (proc_term_write_returns Kernel.jhash_1word Kernel.hash_rnd
           Kernel.big_endian Kernel.TERM_AUTHED Kernel.sscanf_mac
           st2 (replicate 128 0) cmd_clear 6 H1 H2).
Defined.

(** The lookup of aa:bb:cc:dd:ee:ff returns address 2, a linked record,
    which [term_clear] frees. *)
Lemma find_term_by_mac_live_witness :
  k_find st2 macA = Some 2%positive /\
  2%positive ∈ all_terms st2 /\
  heap (term_clear st2) !! 2%positive = None.
Proof.
  assert (H : k_find st2 macA = Some 2%positive) by (vm_compute; reflexivity).
  destruct (find_term_by_mac_live Kernel.jhash_1word Kernel.hash_rnd
              Kernel.big_endian Kernel.TERM_AUTHED st2 macA 2%positive H)
    as (_ & Hall & _ & Hclear).
  repeat apply conj; [exact H | exact Hall | by apply Hclear].
Defined.

(** On the table where an authenticated record of aa:bb:cc:dd:ee:ff sits
    behind a newer one that is not: the address is present, the lookup
    returns the newer record, and the answer, 0, is that record's flag; the
    absent 00:11:22:33:44:55 gets 0 as well. *)
Lemma term_is_authd_spec_witness :
  k_table_wf st_shadow /\ macA ∈ live_macs st_shadow /\
  k_find st_shadow macA = Some 2%positive /\
  k_is_authd st_shadow macA = 0 /\ k_is_authd st_shadow macB = 0.
Proof.
  assert (Hlive : live_macs st_shadow = [macA; macA]) by (vm_compute; reflexivity).
  assert (HA : macA ∈ live_macs st_shadow) by (rewrite Hlive; left).
  assert (HB : macB ∉ live_macs st_shadow).
  { rewrite Hlive. intros H. apply elem_of_cons in H as [H|H]; [discriminate|].
    apply list_elem_of_singleton in H. discriminate. }
  assert (Hfind : k_find st_shadow macA = Some 2%positive) by (vm_compute; reflexivity).
  assert (Hrec : heap st_shadow !! 2%positive
                 = Some (Terminal macA ipB 0 0 (Flow 0 0) 0)) by (vm_compute; reflexivity).
  destruct (term_is_authd_spec Kernel.jhash_1word Kernel.hash_rnd
              Kernel.big_endian Kernel.TERM_AUTHED st_shadow macB k_table_wf_st_shadow)
    as (Habsent & _ & _ & _).
  destruct (term_is_authd_spec Kernel.jhash_1word Kernel.hash_rnd
              Kernel.big_endian Kernel.TERM_AUTHED st_shadow macA k_table_wf_st_shadow)
    as (_ & Hpresent & _ & _).
  destruct (Hpresent HA) as (p & t & l1 & l2 & Hp & Ht & _ & _ & _ & _ & Hzero).
  repeat apply conj; [exact k_table_wf_st_shadow | exact HA | exact Hfind | | exact (Habsent HB)].
  apply Hzero. rewrite Hfind in Hp. injection Hp as <-.
  rewrite Hrec in Ht. injection Ht as <-. reflexivity.
Defined.

(** Clearing the table with two records: header-only listing, no lookup
    succeeds, both records freed, no timer left. *)
Lemma term_clear_complete_witness :
  term_cache st2 = true /\
  k_enumerate (term_clear st2) = [Header] /\
  k_find (term_clear st2) macA = None /\
  heap (term_clear st2) !! 1%positive = None /\
  timers (term_clear st2) !! 2%positive = None.
Proof.
  assert (H : term_cache st2 = true) by reflexivity.
  destruct (term_clear_complete Kernel.jhash_1word Kernel.hash_rnd
              Kernel.big_endian Kernel.HZ Kernel.BITS_PER_LONG Kernel.TERM_AUTHED
              st2 H) as (Henum & _ & _ & Hfind & Hdead).
  assert (Hall : all_terms st2 = [2%positive; 1%positive]) by (vm_compute; reflexivity).
  repeat apply conj; [exact H | exact Henum | apply Hfind | |].
  - apply Hdead. rewrite Hall. right. left.
  - apply Hdead. rewrite Hall. left.
Defined.

(** Marking aa:bb:cc:dd:ee:ff on the table with two records of that address
    rewrites the record at address 2 and leaves the one at address 1. *)
Lemma term_mark_frame_witness :
  Z.land Kernel.TERM_AUTHED Kernel.TERM_ACTIVE = 0 /\
  k_find st2 macA = Some 2%positive /\
  (k_mark st2 macA 1).1 = 0 /\
  heap (k_mark st2 macA 1).2 !! 1%positive = heap st2 !! 1%positive /\
  table (k_mark st2 macA 1).2 = table st2.
Proof.
  assert (H1 : Z.land Kernel.TERM_AUTHED Kernel.TERM_ACTIVE = 0) by reflexivity.
  assert (H2 : k_find st2 macA = Some 2%positive) by (vm_compute; reflexivity).
  destruct (term_mark_frame Kernel.jhash_1word Kernel.hash_rnd Kernel.big_endian
              Kernel.TERM_ACTIVE Kernel.TERM_AUTHED st2 macA 1 2%positive H1 H2)
    as (Hr & _ & _ & Htab & _ & Hother & _).
  repeat apply conj; [exact H1 | exact H2 | exact Hr | | exact Htab].
  apply Hother. discriminate.
Defined.

(** The second insertion of aa:bb:cc:dd:ee:ff: the lookup moves from address
    1 to address 2, and address 1 stays linked behind it. *)
Lemma add_term_duplicate_witness :
  heap st1 !! 2%positive = None /\
  k_find st1 macA = Some 1%positive /\
  k_find st2 macA = Some 2%positive /\
  chain st2 (k_hash macA) = 2%positive :: chain st1 (k_hash macA) /\
  1%positive ∈ chain st2 (k_hash macA).
Proof.
  assert (H1 : heap st1 !! 2%positive = None) by (vm_compute; reflexivity).
  assert (H2 : k_find st1 macA = Some 1%positive) by (vm_compute; reflexivity).
  destruct (add_term_duplicate Kernel.jhash_1word Kernel.hash_rnd Kernel.big_endian
              Kernel.HZ Kernel.BITS_PER_LONG st1 macA ipB 2%positive 1%positive H1 H2)
    as (_ & Hchain & Hfind & _ & _ & Hold & _).
  repeat apply conj; [exact H1 | exact H2 | exact Hfind | exact Hchain | exact Hold].
Defined.

(** ** The further properties at work *)

Local Abbreviation k_mark_denied :=
  (term_mark_denied Kernel.jhash_1word Kernel.hash_rnd Kernel.big_endian
                    Kernel.TERM_AUTHED).
Local Abbreviation k_show :=
  (term_seq_show Kernel.HZ Kernel.BITS_PER_LONG Kernel.TERM_AUTHED).
Local Abbreviation k_listing_from :=
  (listing_from Kernel.HZ Kernel.BITS_PER_LONG Kernel.TERM_AUTHED).
Local Abbreviation k_registry_ok :=
  (registry_ok Kernel.jhash_1word Kernel.hash_rnd Kernel.big_endian).
Local Abbreviation k_reachable :=
  (reachable Kernel.jhash_1word Kernel.hash_rnd Kernel.big_endian Kernel.HZ
             Kernel.BITS_PER_LONG Kernel.TERM_ACTIVE Kernel.TERM_AUTHED
             Kernel.sscanf_mac).
Local Abbreviation k_step :=
  (step Kernel.jhash_1word Kernel.hash_rnd Kernel.big_endian Kernel.HZ
        Kernel.BITS_PER_LONG Kernel.TERM_ACTIVE Kernel.TERM_AUTHED
        Kernel.sscanf_mac).

(** The table with aa:bb:cc:dd:ee:ff inserted once is well formed. *)
Lemma k_table_wf_st1 : k_table_wf st1.
Proof.
  apply table_wf_add_term; [apply table_wf_init|].
  intros p [= <-]. vm_compute. reflexivity.
Qed.

(** Marking the absent 00:11:22:33:44:55 answers -1 and changes nothing. *)
Lemma term_mark_result_witness :
  k_table_wf st1 /\ (k_mark st1 macB 1).1 = -1 /\ (k_mark st1 macB 1).2 = st1.
Proof.
  destruct (term_mark_result Kernel.jhash_1word Kernel.hash_rnd Kernel.big_endian
              Kernel.TERM_AUTHED st1 macB 1 k_table_wf_st1) as (_ & _ & Hsame).
  assert (H : (k_mark st1 macB 1).1 = -1) by (vm_compute; reflexivity).
  repeat apply conj; [exact k_table_wf_st1 | exact H | exact (Hsame H)].
Defined.

(** Marking aa:bb:cc:dd:ee:ff authenticated, then denied. *)
Lemma term_mark_then_is_authd_witness :
  Kernel.TERM_AUTHED <> 0 /\ k_find st1 macA = Some 1%positive /\
  k_is_authd (k_mark_authed st1 macA).2 macA = 1 /\
  k_is_authd (k_mark_denied st1 macA).2 macA = 0.
Proof.
  assert (H1 : Kernel.TERM_AUTHED <> 0) by (vm_compute; discriminate).
  assert (H2 : k_find st1 macA = Some 1%positive) by (vm_compute; reflexivity).
  destruct (term_mark_then_is_authd Kernel.jhash_1word Kernel.hash_rnd
              Kernel.big_endian Kernel.TERM_AUTHED st1 macA 1%positive H1 H2)
    as [Ha Hd].
  repeat apply conj; [exact H1 | exact H2 | exact Ha | exact Hd].
Defined.

(** Marking aa:bb:cc:dd:ee:ff leaves 00:11:22:33:44:55 as it was. *)
Lemma term_mark_other_witness :
  macB <> macA /\
  k_is_authd (k_mark st1 macA 1).2 macB = k_is_authd st1 macB.
Proof.
  assert (H : macB <> macA) by discriminate.
  split; [exact H|].
  exact (proj2 (term_mark_other Kernel.jhash_1word Kernel.hash_rnd Kernel.big_endian
                  Kernel.TERM_AUTHED st1 macA macB 1 H)).
Defined.

(** Inserting 00:11:22:33:44:55 leaves the lookup of aa:bb:cc:dd:ee:ff. *)
Lemma add_term_other_witness :
  heap st1 !! 2%positive = None /\ macA <> macB /\
  k_find (k_add_term st1 macB ipB (Some 2%positive)).2 macA = k_find st1 macA.
Proof.
  assert (H1 : heap st1 !! 2%positive = None) by (vm_compute; reflexivity).
  assert (H2 : macA <> macB) by discriminate.
  repeat apply conj; [exact H1 | exact H2 |].
  exact (proj1 (add_term_other Kernel.jhash_1word Kernel.hash_rnd Kernel.big_endian
                  Kernel.HZ Kernel.BITS_PER_LONG Kernel.TERM_AUTHED
                  st1 macB macA ipB 2%positive H1 H2)).
Defined.

(** With aa:bb:cc:dd:ee:ff inserted and marked authenticated, the row of its
    record, first of bucket 240, shows 1 under Authed. *)
Lemma term_seq_show_authed_witness :
  exists t au,
    heap (k_mark_authed st1 macA).2 !! 1%positive = Some t /\
    k_show (k_mark_authed st1 macA).2 (Head 240) !! 0%nat
    = Some (Row (mac t) (ip t) (rx (flow t)) (tx (flow t))
                (ulong Kernel.BITS_PER_LONG
                   (jiffies (k_mark_authed st1 macA).2 - j t) / Kernel.HZ) au) /\
    au = 1.
Proof.
  assert (Hwf : k_table_wf (k_mark_authed st1 macA).2)
    by (apply table_wf_term_mark; exact k_table_wf_st1).
  assert (Hi : 0 <= 240 < TERM_HASH_SIZE) by (change TERM_HASH_SIZE with 256; lia).
  assert (Hk : chain (k_mark_authed st1 macA).2 240 !! 0%nat = Some 1%positive)
    by (vm_compute; reflexivity).
  destruct (term_seq_show_authed Kernel.jhash_1word Kernel.hash_rnd Kernel.big_endian
              Kernel.HZ Kernel.BITS_PER_LONG Kernel.TERM_AUTHED
              (k_mark_authed st1 macA).2 240 0%nat 1%positive Hwf Hi Hk)
    as (t & au & Ht & Hrow & Hau & _).
  exists t, au. repeat apply conj; [exact Ht | exact Hrow |].
  assert (Hc : take 1 (chain (k_mark_authed st1 macA).2 240) = [1%positive])
    by (vm_compute; reflexivity).
  apply Hau. rewrite Hc. apply Exists_cons_hd. exists t. split; [exact Ht|].
  assert (Ht' : heap (k_mark_authed st1 macA).2 !! 1%positive
                = Some (Terminal macA ipA 2 0 (Flow 0 0) 0)) by (vm_compute; reflexivity).
  rewrite Ht' in Ht. injection Ht as <-. vm_compute. discriminate.
Defined.

(** A read resumed at position 240 lists bucket 240 onwards; at 256, nothing. *)
Lemma listing_from_position_witness :
  k_listing_from st1 240
  = flat_map (fun i => k_show st1 (Head i)) (seqZ 240 (TERM_HASH_SIZE - 240)) /\
  k_listing_from st1 256 = [].
Proof.
  split.
  - apply (listing_from_position Kernel.HZ Kernel.BITS_PER_LONG Kernel.TERM_AUTHED
             st1 240); reflexivity.
  - apply (listing_from_position Kernel.HZ Kernel.BITS_PER_LONG Kernel.TERM_AUTHED
             st1 256); [reflexivity | vm_compute; discriminate].
Defined.

(** An empty write is refused with [-EINVAL] and changes nothing. *)
Lemma proc_term_write_error_witness :
  (k_write st1 (replicate 128 0) [] 0).1 = - EINVAL /\
  (k_write st1 (replicate 128 0) [] 0).2 = st1.
Proof.
  assert (H : 0 <= 0) by reflexivity.
  destruct (proc_term_write_error Kernel.jhash_1word Kernel.hash_rnd Kernel.big_endian
              Kernel.TERM_AUTHED Kernel.sscanf_mac st1 (replicate 128 0) [] 0 H)
    as (Hinval & _ & Hsame & _).
  assert (H0 : (k_write st1 (replicate 128 0) [] 0).1 = - EINVAL) by (by apply Hinval).
  split; [exact H0|]. apply Hsame. rewrite H0. reflexivity.
Defined.

(** The six bytes of "clear" and a newline clear the table. *)
Lemma proc_term_write_clear_witness :
  k_write st2 (replicate 128 0) cmd_clear 6 = (Z.min 6 128, term_clear st2).
Proof.
  apply (proc_term_write_clear Kernel.jhash_1word Kernel.hash_rnd Kernel.big_endian
           Kernel.TERM_AUTHED Kernel.sscanf_mac st2 (replicate 128 0) cmd_clear 6).
  - vm_compute. discriminate.
  - vm_compute. discriminate.
  - reflexivity.
Defined.

(** The five bytes of "clear" alone leave the table as it is. *)
Lemma proc_term_write_clear_short_witness :
  k_write st2 (replicate 128 0) str_clear 5 = (5, st2).
Proof.
  apply (proc_term_write_clear_short Kernel.jhash_1word Kernel.hash_rnd
           Kernel.big_endian Kernel.TERM_AUTHED Kernel.sscanf_mac
           st2 (replicate 128 0) str_clear).
  reflexivity.
Defined.

(** The table after two insertions, a mark and a tick is reachable, and so
    its bookkeeping holds. *)
Lemma reachable_registry_ok_witness :
  k_registry_ok (k_advance 1 (k_mark_authed st2 macA).2).
Proof.
  apply (reachable_registry_ok Kernel.jhash_1word Kernel.hash_rnd Kernel.big_endian
           Kernel.HZ Kernel.BITS_PER_LONG Kernel.TERM_ACTIVE Kernel.TERM_AUTHED
           Kernel.sscanf_mac).
  exists 0.
  eapply rtc_r; [eapply rtc_r; [eapply rtc_r; [eapply rtc_once|]|]|].
  - apply (step_add_term _ _ _ _ _ _ _ _ st0 macA ipA (Some 1%positive)).
    intros p [= <-]. reflexivity.
  - apply (step_add_term _ _ _ _ _ _ _ _ st1 macA ipB (Some 2%positive)).
    intros p [= <-]. vm_compute. reflexivity.
  - apply (step_term_mark _ _ _ _ _ _ _ _ st2 macA Kernel.TERM_AUTHED).
  - apply (step_tick _ _ _ _ _ _ _ _ (k_mark_authed st2 macA).2).
Defined.

(** A record with [flags = TERM_ACTIVE], linked in its bucket, its timer
    pending for tick 6000; and the same record with [flags] clear. *)
Local Abbreviation idle_term := (Terminal macA ipA 0 0 (Flow 0 0) 0).
Local Abbreviation st_armed :=
  (State 0 true {[ 1%positive := active_term ]} {[ 240 := [1%positive] ]}
         {[ 1%positive := 6000 ]}).
Local Abbreviation st_armed_idle :=
  (State 0 true {[ 1%positive := idle_term ]} {[ 240 := [1%positive] ]}
         {[ 1%positive := 6000 ]}).

(** The timer of the active record fires at ticks 6000 and 12000: each time
    it is found armed one TTL further, and after the second firing the
    record is still live, its [flags] still [TERM_ACTIVE].  The record with
    [flags] clear is freed by the firing at tick 6000. *)
Lemma active_record_stays_witness :
  Z.land (flags active_term) Kernel.TERM_ACTIVE <> 0 /\
  timers (k_advance (Z.to_nat 5999) st_armed) !! 1%positive = Some 6000 /\
  timers (k_advance (Z.to_nat 6000) st_armed) !! 1%positive = Some 12000 /\
  timers (k_advance (Z.to_nat 12000) st_armed) !! 1%positive = Some 18000 /\
  (exists t', heap (k_advance (Z.to_nat 12000) st_armed) !! 1%positive = Some t' /\
              flags t' = Kernel.TERM_ACTIVE) /\
  1%positive ∈ chain (k_advance (Z.to_nat 12000) st_armed) 240 /\
  heap (k_advance (Z.to_nat 6000) st_armed_idle) !! 1%positive = None.
Proof.
  assert (H1 : heap st_armed !! 1%positive = Some active_term) by reflexivity.
  assert (H2 : Z.land (flags active_term) Kernel.TERM_ACTIVE <> 0)
    by (vm_compute; discriminate).
  assert (H3 : 1%positive ∈ chain st_armed 240) by (vm_compute; left).
  destruct (active_record_stays Kernel.HZ Kernel.BITS_PER_LONG Kernel.TERM_ACTIVE
              st_armed 1%positive active_term (Z.to_nat 12000) H1 H2)
    as [(t' & Ht' & Hf & _) Hlinked].
  split; [exact H2|].
  split; [vm_compute; reflexivity|].
  split; [vm_compute; reflexivity|].
  split; [vm_compute; reflexivity|].
  split; [exists t'; split; [exact Ht' | exact Hf]|].
  split; [exact (Hlinked 240 H3)|].
  vm_compute. reflexivity.
Defined.

(** In the table with aa:bb:cc:dd:ee:ff, the lookup of 00:11:22:33:44:55
    returns NULL. *)
Lemma find_term_by_mac_present_witness :
  k_table_wf st1 /\ k_find st1 macB = None.
Proof.
  split; [exact k_table_wf_st1|].
  apply (find_term_by_mac_present Kernel.jhash_1word Kernel.hash_rnd
           Kernel.big_endian st1 macB k_table_wf_st1).
  assert (live_macs st1 = [macA]) as -> by (vm_compute; reflexivity).
  intros H. apply list_elem_of_singleton in H. discriminate.
Defined.
